(** * xtensor [xrandom.hpp]: lazily evaluated random arrays

    A shallow embedding of [xt::detail::random_impl] (the per-index accessor
    that replays a pseudorandom stream to the requested draw position) and of
    [xt::detail::make_random_xgenerator] (the factory that advances the
    caller's engine), followed by the properties of the specification that
    were checked against them.

    Conventions.
    - [std::size_t] is an unsigned 64-bit integer, [int] a signed 32-bit
      integer and [long] a signed 64-bit integer (LP64).  They are carried
      by [Z]; every operation of the source that can leave the range is
      followed by the conversion the C++ abstract machine performs.
    - The engine [E] and the distribution [D] are template parameters of
      the source.  They are interfaces here ([Engine], [Distribution]).
    - Every call of the accessor is a state transformer on the object that
      additionally writes the events a claim may want to observe. *)

From stdpp Require Import prelude.

Local Open Scope Z_scope.

(** ** Machine integers *)

Module Machine.

(** Conversion to [std::size_t]: reduction modulo 2^64. *)
Definition to_size_t (z : Z) : Z := z mod 2 ^ 64.

(** Conversion to [int]: the representative of [z] modulo 2^32 that lies
    in [-2^31, 2^31). *)
Definition to_int (z : Z) : Z := (z + 2 ^ 31) mod 2 ^ 32 - 2 ^ 31.

(** Conversion to [long]. *)
Definition to_long (z : Z) : Z := (z + 2 ^ 63) mod 2 ^ 64 - 2 ^ 63.

Definition is_size_t (z : Z) : Prop := 0 <= z < 2 ^ 64.
Definition is_int (z : Z) : Prop := - 2 ^ 31 <= z < 2 ^ 31.

End Machine.
Import Machine.

(** ** The collaborators: engine and distribution *)

(** A uniform random bit generator: [engine_call] is [operator()], it
    returns one raw value and the advanced engine. *)
Class Engine (E Raw : Type) := engine_call : E -> Raw * E.

(** [engine.discard(z)]: advance the engine as if by [z] calls. *)
Definition engine_discard `{Engine E Raw} (z : Z) (e : E) : E :=
  Nat.iter (Z.to_nat z) (fun e' => snd (engine_call e')) e.

(** What one call [dist(engine)] does with the engine it is handed: it
    pulls raw values, one at a time, and finally yields a value together
    with its own next state. *)
Inductive sampler (Raw V D : Type) : Type :=
  | Yield (v : V) (d : D)
  | Pull (k : Raw -> sampler Raw V D).
Arguments Yield {Raw V D} v d.
Arguments Pull {Raw V D} k.

(** A random number distribution: [operator()(engine)] and [reset()]. *)
Class Distribution (D Raw V : Type) := {
  dist_call : D -> sampler Raw V D;
  dist_reset : D -> D
}.

(** ** Strides and the linear draw position *)

(** The loop of the constructor:
    [for (i = m_strides.size(); i != 0; --i)
       { m_strides[i-1] = data_size; data_size = m_strides[i-1] * shape[i-1]; }] *)
Fixpoint strides_loop (shape : list Z) (i : nat) (m_strides : list Z)
    (data_size : Z) : list Z :=
  match i with
  | O => m_strides
  | S j =>
      let m_strides' := <[j := data_size]> m_strides in
      let data_size' := to_size_t (default 0 (m_strides' !! j) * default 0 (shape !! j)) in
      strides_loop shape j m_strides' data_size'
  end.

(** [m_strides(shape.size())] value-initialises the vector, then the loop
    runs with [data_size = 1]. *)
Definition compute_strides (shape : list Z) : list Z :=
  strides_loop shape (length shape) (replicate (length shape) 0) 1.

(** [std::inner_product(first, last, m_strides.begin(), init)] where [init]
    is an [int].  Each step evaluates [init + *first1 * *first2] in
    [std::size_t] (the index component and the [int] accumulator are both
    converted to the unsigned type) and stores the result back into the
    [int] accumulator.  The source reads one stride per index component
    without looking at the length of [m_strides]; an index longer than the
    strides is outside its contract and the fold stops there. *)
Fixpoint inner_product (idx m_strides : list Z) (init : Z) : Z :=
  match idx, m_strides with
  | a :: idx', s :: m_strides' =>
      inner_product idx' m_strides'
        (to_int (to_size_t (to_size_t init + to_size_t (to_size_t a * s))))
  | _, _ => init
  end.

(** ** The object *)

Section Object.
Context {E Raw V D : Type} `{!Engine E Raw} `{!Distribution D Raw V}.

(** The [std::stringstream] behind [m_engine_state]: the engines written
    to it so far, the get position (counted in engines) and the fail
    bit.  The end-of-file bit is left out: [seekg] clears it before it
    does anything else. *)
Record stringstream := {
  ss_str : list E;
  ss_gpos : nat;
  ss_fail : bool
}.

Definition ss_new : stringstream :=
  {| ss_str := []; ss_gpos := O; ss_fail := false |}.

(** [ss << engine] *)
Definition ss_insert (e : E) (ss : stringstream) : stringstream :=
  if ss_fail ss then ss
  else {| ss_str := ss_str ss ++ [e]; ss_gpos := ss_gpos ss; ss_fail := false |}.

(** [ss >> engine]: [None] when nothing could be read, in which case the
    fail bit is set and the engine of the caller keeps its state. *)
Definition ss_extract (ss : stringstream) : option E * stringstream :=
  if ss_fail ss then (None, ss)
  else match ss_str ss !! ss_gpos ss with
       | Some e => (Some e, {| ss_str := ss_str ss; ss_gpos := S (ss_gpos ss); ss_fail := false |})
       | None => (None, {| ss_str := ss_str ss; ss_gpos := ss_gpos ss; ss_fail := true |})
       end.

(** [ss.seekg(0)]: does nothing on a failed stream. *)
Definition ss_seekg0 (ss : stringstream) : stringstream :=
  if ss_fail ss then ss
  else {| ss_str := ss_str ss; ss_gpos := O; ss_fail := false |}.

(** The data members of [random_impl].  [m_engine_state] is a shared
    pointer in the source; one object is followed here, so the stream it
    points to is a field. *)
Record random_impl := {
  m_engine : E;
  m_dist : D;
  m_strides : list Z;
  m_engine_state : stringstream;
  m_advance_state : Z
}.

Definition set_engine (e : E) (s : random_impl) : random_impl :=
  {| m_engine := e; m_dist := m_dist s; m_strides := m_strides s;
     m_engine_state := m_engine_state s; m_advance_state := m_advance_state s |}.
Definition set_dist (d : D) (s : random_impl) : random_impl :=
  {| m_engine := m_engine s; m_dist := d; m_strides := m_strides s;
     m_engine_state := m_engine_state s; m_advance_state := m_advance_state s |}.
Definition set_engine_state (ss : stringstream) (s : random_impl) : random_impl :=
  {| m_engine := m_engine s; m_dist := m_dist s; m_strides := m_strides s;
     m_engine_state := ss; m_advance_state := m_advance_state s |}.
Definition set_advance_state (c : Z) (s : random_impl) : random_impl :=
  {| m_engine := m_engine s; m_dist := m_dist s; m_strides := m_strides s;
     m_engine_state := m_engine_state s; m_advance_state := c |}.

(** [random_impl(E engine, D dist, S shape)] *)
Definition mk_random_impl (engine : E) (dist : D) (shape : list Z) : random_impl :=
  {| m_engine := engine;
     m_dist := dist;
     m_strides := compute_strides shape;
     m_engine_state := ss_insert engine ss_new;
     m_advance_state := -1 |}.

(** *** Observable events *)

(** What a call of the accessor does to the stream: the engine is asked
    for a raw value while in state [e], the distribution is invoked, the
    engine is restored from the snapshot. *)
Inductive event : Type :=
  | EvRaw (e : E)
  | EvDraw
  | EvRewind.

(** A member function: a transformer of the object that returns a result
    and the events it caused, oldest first. *)
Definition M (A : Type) : Type := random_impl -> A * random_impl * list event.

Definition ret {A} (a : A) : M A := fun s => (a, s, []).
Definition bind {A B} (m : M A) (k : A -> M B) : M B :=
  fun s =>
    let '(a, s1, t1) := m s in
    let '(b, s2, t2) := k a s1 in
    (b, s2, t1 ++ t2).
Definition gets {A} (f : random_impl -> A) : M A := fun s => (f s, s, []).
Definition modify (f : random_impl -> random_impl) : M unit := fun s => (tt, f s, []).
Definition emit (ev : event) : M unit := fun s => (tt, s, [ev]).

Definition value_of {A} (r : A * random_impl * list event) : A := r.1.1.
Definition state_of {A} (r : A * random_impl * list event) : random_impl := r.1.2.
Definition trace_of {A} (r : A * random_impl * list event) : list event := r.2.

Notation "'let*' x ':=' c 'in' k" := (bind c (fun x => k))
  (at level 10, x pattern, c at level 100, k at level 200).
Notation "c ';;' k" := (bind c (fun _ => k))
  (at level 100, k at level 200, right associativity).

(** *** [m_dist(m_engine)] *)

(** Running one call of the distribution against an engine. *)
Fixpoint run_sampler (t : sampler Raw V D) (e : E) : V * D * E * list event :=
  match t with
  | Yield v d => (v, d, e, [])
  | Pull k =>
      let '(r, e') := engine_call e in
      let '(res, tr) := run_sampler (k r) e' in
      (res, EvRaw e :: tr)
  end.

Definition call_dist : M V := fun s =>
  let '(v, d, e, tr) := run_sampler (dist_call (m_dist s)) (m_engine s) in
  (v, set_engine e (set_dist d s), EvDraw :: tr).

(** *** [access_impl] *)

(** [m_advance_state++] on a [long].  Between calls the cursor stays in
    [-1, 2^31) ([inv_cursor]), so the increment never leaves the range. *)
Definition incr_advance_state : M unit :=
  modify (fun s => set_advance_state (to_long (m_advance_state s + 1)) s).

(** [*m_engine_state >> m_engine; m_engine_state->seekg(0);
     m_dist.reset(); m_advance_state = 0;] *)
Definition full_reset : M unit :=
  emit EvRewind ;;
  modify (fun s =>
    let '(r, ss) := ss_extract (m_engine_state s) in
    let s := set_engine_state ss s in
    match r with Some e => set_engine e s | None => s end) ;;
  modify (fun s => set_engine_state (ss_seekg0 (m_engine_state s)) s) ;;
  modify (fun s => set_dist (dist_reset (m_dist s)) s) ;;
  modify (set_advance_state 0).

(** [for (; m_advance_state < advance_state; m_advance_state++)
      m_dist(m_engine);]
    The loop test is kept; [fuel] bounds the number of iterations and
    [discard_loop_exits] shows that the caller's choice always lets the
    loop leave through its test. *)
Fixpoint discard_loop (fuel : nat) (advance_state : Z) : M unit :=
  match fuel with
  | O => ret tt
  | S fuel' =>
      let* cur := gets m_advance_state in
      if cur <? advance_state then
        call_dist ;; incr_advance_state ;; discard_loop fuel' advance_state
      else ret tt
  end.

Definition access_impl (idx : list Z) : M V :=
  let* strides := gets m_strides in
  (* an [int], widened to [long] without change of value *)
  let advance_state := inner_product idx strides 0 in
  incr_advance_state ;;
  let* cur := gets m_advance_state in
  if cur =? advance_state then call_dist
  else
    (if advance_state <? cur then full_reset else ret tt) ;;
    let* cur := gets m_advance_state in
    discard_loop (Z.to_nat (advance_state - cur)) advance_state ;;
    call_dist.

(** *** The three public accessors *)

(** [operator()(Args... args)]: every argument is cast to [size_type]. *)
Definition operator_call (args : list Z) : M V :=
  access_impl (to_size_t <$> args).

(** [operator[](const xindex& idx)] *)
Definition operator_index (idx : list Z) : M V := access_impl idx.

(** [element(It first, It last)] *)
Definition element (idx : list Z) : M V := access_impl idx.

(** Successive reads on one object. *)
Fixpoint read_all (l : list (list Z)) : M (list V) :=
  match l with
  | [] => ret []
  | idx :: l' =>
      let* v := access_impl idx in
      let* vs := read_all l' in
      ret (v :: vs)
  end.

End Object.

Arguments stringstream : clear implicits.
Arguments random_impl : clear implicits.
Arguments event : clear implicits.

(** ** The factory *)

Section Factory.
Context {E Raw V D : Type} `{!Engine E Raw} `{!Distribution D Raw V}.

(** Modelled from the spec: [detail::make_xgenerator] of xgenerator.hpp,
    which is not part of the sources at hand.  The lazy array node stores
    the per-element callable and the shape, and asks the callable for the
    element at a multi-dimensional index whenever one is requested. *)
Record xgenerator := {
  xg_functor : random_impl E D;
  xg_shape : list Z
}.

Definition make_xgenerator (f : random_impl E D) (shape : list Z) : xgenerator :=
  {| xg_functor := f; xg_shape := shape |}.

(** [std::accumulate(shape.begin(), shape.end(), std::size_t(1),
     std::multiplies<>())] *)
Definition n_discard (shape : list Z) : Z :=
  foldl (fun acc x => to_size_t (acc * x)) 1 shape.

(** [make_random_xgenerator(D dist, E& engine, S shape)]: the result is
    the generator together with the state in which the caller's engine
    is left. *)
Definition make_random_xgenerator (dist : D) (engine : E) (shape : list Z)
    : xgenerator * E :=
  let f := make_xgenerator (mk_random_impl engine dist shape) shape in
  (f, engine_discard (n_discard shape) engine).

End Factory.

Arguments xgenerator : clear implicits.

(** ** Reference notions of the specification *)

(** The number of elements of a shape, as a mathematical integer. *)
Definition shape_size (shape : list Z) : Z := foldr Z.mul 1 shape.

(** Row-major strides as mathematical integers:
    [strides[k] = product(shape[k+1:])]. *)
Definition row_major_strides (shape : list Z) : list Z :=
  (fun k => shape_size (drop (S k) shape)) <$> seq 0 (length shape).

(** The dot product of an index with strides, without any wrap-around. *)
Fixpoint dot (idx strides : list Z) : Z :=
  match idx, strides with
  | a :: idx', s :: strides' => a * s + dot idx' strides'
  | _, _ => 0
  end.

(** An index is valid for a shape when it has one component per dimension
    and every component is below the extent of its dimension. *)
Definition valid_index (shape idx : list Z) : Prop :=
  Forall2 (fun i n => 0 <= i < n) idx shape.

(** The linear draw position of an index: its rank in row-major order. *)
Definition linear_position (shape idx : list Z) : Z :=
  dot idx (row_major_strides shape).

(** All valid indices of a shape in row-major order: the last component
    varies fastest. *)
Fixpoint all_indices (shape : list Z) : list (list Z) :=
  match shape with
  | [] => [[]]
  | n :: shape' => i ← seqZ 0 n; (cons i) <$> all_indices shape'
  end.

Section Reference.
Context {E Raw V D : Type} `{!Engine E Raw} `{!Distribution D Raw V}.

(** One sample of the distribution over the engine: the value, and the
    distribution and the engine afterwards. *)
Definition sample (d : D) (e : E) : V * D * E :=
  (run_sampler (dist_call d) e).1.

(** The distribution and the engine after [n] successive samples. *)
Fixpoint after_draws (n : nat) (d : D) (e : E) : D * E :=
  match n with
  | O => (d, e)
  | S n' => let '(_, d', e') := sample d e in after_draws n' d' e'
  end.

(** The value of draw number [n], counting from zero. *)
Definition nth_draw (n : nat) (d : D) (e : E) : V :=
  let '(d', e') := after_draws n d e in (sample d' e').1.1.

(** [n] successive samples from an engine and a distribution. *)
Fixpoint fresh_draws (n : nat) (d : D) (e : E) : list V :=
  match n with
  | O => []
  | S n' => let '(v, d', e') := sample d e in v :: fresh_draws n' d' e'
  end.

(** Materialising the virtual array: every element of a newly
    constructed object, read once, in row-major order. *)
Definition materialize (e : E) (d : D) (shape : list Z) : list V :=
  value_of (read_all (all_indices shape) (mk_random_impl e d shape)).

(** *** Notions about traces and states used to state the properties *)

(** The engine states at which a trace asked the engine for a raw value. *)
Definition raw_states (tr : list (event E)) : list E :=
  omap (fun ev => match ev with EvRaw e => Some e | _ => None end) tr.

(** The distribution was invoked this many times since the engine was
    last restored from the snapshot (or since the beginning). *)
Fixpoint draws_since_rewind (tr : list (event E)) (acc : Z) : Z :=
  match tr with
  | [] => acc
  | EvRewind :: tr' => draws_since_rewind tr' 0
  | EvDraw :: tr' => draws_since_rewind tr' (acc + 1)
  | EvRaw _ :: tr' => draws_since_rewind tr' acc
  end.

Definition has_rewind (tr : list (event E)) : bool :=
  existsb (fun ev => match ev with EvRewind => true | _ => false end) tr.

(** The distribution is handed to the object in the state that its own
    [reset] restores, whatever has been drawn in between.  This is what
    a newly constructed distribution of the standard library provides,
    and what [rand], [randint] and [randn] pass on. *)
Definition resets_to_initial (d0 : D) (e0 : E) : Prop :=
  ∀ n, dist_reset (after_draws n d0 e0).1 = d0.

(** The events of draw number [j] of the stream that starts with the
    distribution [d0] and the engine [e0]. *)
Definition draw_events (d0 : D) (e0 : E) (j : nat) : list (event E) :=
  EvDraw :: (run_sampler (dist_call (after_draws j d0 e0).1) (after_draws j d0 e0).2).2.

(** The events of the [n] draws from number [from] on. *)
Definition draws_events (d0 : D) (e0 : E) (from n : nat) : list (event E) :=
  seq from n ≫= draw_events d0 e0.

(** The events of one call of the accessor that finds the cursor at [c]
    and is asked for position [adv]: a rewind and a replay from the
    start when the position is not ahead of the cursor, the draws from
    the cursor on otherwise. *)
Definition access_events (d0 : D) (e0 : E) (c adv : Z) : list (event E) :=
  if decide (adv < c + 1)
  then EvRewind :: draws_events d0 e0 0 (Z.to_nat (Z.max 0 adv + 1))
  else draws_events d0 e0 (Z.to_nat (c + 1)) (Z.to_nat (Z.max 0 adv - c)).

(** A call of the distribution that asks the engine for exactly one raw
    value. *)
Definition single_pull (t : sampler Raw V D) : Prop :=
  match t with
  | Pull k => ∀ r, match k r with Yield _ _ => True | Pull _ => False end
  | Yield _ _ => False
  end.

(** The number of the draw that the accessor serves for an index. *)
Definition served_draw (strides idx : list Z) : nat :=
  Z.to_nat (Z.max 0 (inner_product idx strides 0)).

(** The snapshot stream as the constructor leaves it. *)
Definition snapshot_of (e0 : E) : stringstream E :=
  {| ss_str := [e0]; ss_gpos := O; ss_fail := false |}.

(** What holds of an object between two calls of its accessor: the
    snapshot can be read again, the cursor is the number of the draw
    served last, and distribution and engine are one draw further. *)
Record inv (e0 : E) (d0 : D) (strides : list Z) (s : random_impl E D) : Prop := {
  inv_strides : m_strides s = strides;
  inv_snapshot : m_engine_state s = snapshot_of e0;
  inv_cursor : -1 <= m_advance_state s < 2 ^ 31;
  inv_stream :
    (m_dist s, m_engine s) = after_draws (Z.to_nat (m_advance_state s + 1)) d0 e0
}.

End Reference.

(** ** Copies of one object *)

Section Copies.
Context {E Raw V D : Type} `{!Engine E Raw} `{!Distribution D Raw V}.

(** [random_impl] has the implicit copy constructor: engine, distribution,
    strides and cursor are copied, and the copy of the shared pointer
    [m_engine_state] points to the stream of the original ("has to be
    copied in case of being used in an xfunction").  Two copies are
    followed here; the one stream behind both pointers is what the field
    [m_engine_state] of either shows. *)
Record copies := {
  first_copy : random_impl E D;
  second_copy : random_impl E D
}.

Definition copy_of (s : random_impl E D) : copies :=
  {| first_copy := s; second_copy := s |}.

(** A call of the accessor on one of the copies: what it does to the
    stream is seen through the pointer of the other copy as well. *)
Definition access_copy (on_first : bool) (idx : list Z) (c : copies) : V * copies :=
  if on_first then
    let r := access_impl idx (first_copy c) in
    (value_of r,
     {| first_copy := state_of r;
        second_copy := set_engine_state (m_engine_state (state_of r)) (second_copy c) |})
  else
    let r := access_impl idx (second_copy c) in
    (value_of r,
     {| first_copy := set_engine_state (m_engine_state (state_of r)) (first_copy c);
        second_copy := state_of r |}).

(** Calls on the two copies in any interleaving. *)
Fixpoint read_copies (l : list (bool * list Z)) (c : copies) : list V * copies :=
  match l with
  | [] => ([], c)
  | (on_first, idx) :: l' =>
      let '(v, c1) := access_copy on_first idx c in
      let '(vs, c2) := read_copies l' c1 in
      (v :: vs, c2)
  end.

End Copies.

Arguments copies : clear implicits.

(** ** The entry point for integers *)

Section EntryPoints.
Context {E Raw D : Type} `{!Engine E Raw} `{!Distribution D Raw Z}.

(** [std::uniform_int_distribution<T>(a, b)] belongs to the standard
    library, not to the sources: its constructor is a parameter. *)
Variable uniform_int_distribution : Z -> Z -> D.

(** [randint<T>(shape, lower, upper, engine)] for [T = int]:
    [std::uniform_int_distribution<T> dist(lower, upper - 1);
     return detail::make_random_xgenerator<T>(dist, engine, shape);] *)
Definition randint (shape : list Z) (lower upper : Z) (engine : E)
    : xgenerator E D * E :=
  let dist := uniform_int_distribution lower (to_int (upper - 1)) in
  make_random_xgenerator dist engine shape.

End EntryPoints.

(** ** Further notions used to state properties *)

Section Observations.
Context {E Raw V D : Type} `{!Engine E Raw} `{!Distribution D Raw V}.

(** How often a trace invoked the distribution. *)
Fixpoint count_draws (tr : list (event E)) : nat :=
  match tr with
  | [] => O
  | EvDraw :: tr' => S (count_draws tr')
  | _ :: tr' => count_draws tr'
  end.

(** A property of every value that a call of the distribution can yield,
    and of the state in which it leaves the distribution, whatever raw
    values the engine hands out. *)
Fixpoint sampler_all (Q : V -> D -> Prop) (t : sampler Raw V D) : Prop :=
  match t with
  | Yield v d => Q v d
  | Pull k => forall r, sampler_all Q (k r)
  end.

End Observations.

(** ** Concrete collaborators *)

Module Examples.

(** An engine whose state is its position in the stream and whose raw
    value at a position is the position itself. *)
#[export] Instance counter_engine : Engine Z Z := fun n => (n, n + 1).

(** A distribution that turns one raw value into one sample. *)
Inductive one_word := OneWord.
#[export] Instance one_word_dist : Distribution one_word Z Z := {|
  dist_call := fun d => Pull (fun r => Yield r d);
  dist_reset := fun d => d
|}.

(** A distribution that needs two raw values for one sample, the way a
    64-bit real is built from a 32-bit engine. *)
Inductive two_words := TwoWords.
#[export] Instance two_words_dist : Distribution two_words Z Z := {|
  dist_call := fun d => Pull (fun hi => Pull (fun lo => Yield (hi * 2 ^ 32 + lo) d));
  dist_reset := fun d => d
|}.

(** A distribution that produces its samples in pairs and keeps the
    second one for the next call; [reset] forgets it. *)
Definition paired := option Z.
#[export] Instance paired_dist : Distribution paired Z Z := {|
  dist_call := fun d =>
    match d with
    | Some v => Yield v None
    | None => Pull (fun a => Pull (fun b => Yield (a + b) (Some (a - b))))
    end;
  dist_reset := fun _ => None
|}.

(** A distribution of integers between two bounds, both included, that
    reduces one raw value into the range. *)
Definition bounded := (Z * Z)%type.
#[export] Instance bounded_dist : Distribution bounded Z Z := {|
  dist_call := fun d => Pull (fun r => Yield (d.1 + r mod (d.2 - d.1 + 1)) d);
  dist_reset := fun d => d
|}.

End Examples.

(** * Properties *)

(** ** Machine integers *)

Section MachineFacts.
Implicit Types x y z : Z.

Lemma to_size_t_range z : is_size_t (to_size_t z).
Proof. unfold is_size_t, to_size_t. apply Z.mod_pos_bound. lia. Qed.

Lemma to_size_t_id z : is_size_t z → to_size_t z = z.
Proof. unfold is_size_t, to_size_t. intros. apply Z.mod_small. lia. Qed.

Lemma to_size_t_idemp z : to_size_t (to_size_t z) = to_size_t z.
Proof. unfold to_size_t. apply Z.mod_mod. lia. Qed.

Lemma to_size_t_mul_l x y : to_size_t (to_size_t x * y) = to_size_t (x * y).
Proof. unfold to_size_t. apply Z.mul_mod_idemp_l. lia. Qed.

Lemma to_int_range z : is_int (to_int z).
Proof.
  unfold is_int, to_int.
  pose proof (Z.mod_pos_bound (z + 2 ^ 31) (2 ^ 32)). lia.
Qed.

Lemma to_int_id z : is_int z → to_int z = z.
Proof.
  unfold is_int, to_int. intros.
  rewrite Z.mod_small by lia. lia.
Qed.

(** [to_int] only sees its argument modulo 2^32. *)
Lemma to_int_shift z k : to_int (z + k * 2 ^ 32) = to_int z.
Proof.
  unfold to_int.
  replace (z + k * 2 ^ 32 + 2 ^ 31) with (z + 2 ^ 31 + k * 2 ^ 32) by lia.
  by rewrite Z.mod_add by lia.
Qed.

Lemma to_int_to_size_t z : to_int (to_size_t z) = to_int z.
Proof.
  unfold to_size_t. rewrite (Z.mod_eq z (2 ^ 64)) by lia.
  replace (z - 2 ^ 64 * (z / 2 ^ 64))
    with (z + (- 2 ^ 32 * (z / 2 ^ 64)) * 2 ^ 32) by lia.
  apply to_int_shift.
Qed.

Lemma to_int_add_l x y : to_int (to_int x + y) = to_int (x + y).
Proof.
  unfold to_int at 2. rewrite (Z.mod_eq (x + 2 ^ 31) (2 ^ 32)) by lia.
  replace (x + 2 ^ 31 - 2 ^ 32 * ((x + 2 ^ 31) / 2 ^ 32) - 2 ^ 31 + y)
    with (x + y + (- ((x + 2 ^ 31) / 2 ^ 32)) * 2 ^ 32) by lia.
  apply to_int_shift.
Qed.

(** One step of the accumulation, as a congruence. *)
Lemma to_int_step init a s :
  to_int (to_size_t (to_size_t init + to_size_t (to_size_t a * s)))
  = to_int (init + a * s).
Proof.
  rewrite to_int_to_size_t, to_size_t_mul_l.
  unfold to_size_t at 1 2.
  rewrite (Z.mod_eq init (2 ^ 64)), (Z.mod_eq (a * s) (2 ^ 64)) by lia.
  replace (init - 2 ^ 64 * (init / 2 ^ 64) + (a * s - 2 ^ 64 * (a * s / 2 ^ 64)))
    with (init + a * s
          + (- 2 ^ 32 * (init / 2 ^ 64) - 2 ^ 32 * (a * s / 2 ^ 64)) * 2 ^ 32) by lia.
  apply to_int_shift.
Qed.

(** A non-negative number never grows when it is converted to [int]. *)
Lemma to_int_le z : 0 <= z → to_int z <= z.
Proof.
  intros Hz. unfold to_int.
  rewrite (Z.mod_eq (z + 2 ^ 31) (2 ^ 32)) by lia.
  assert (0 <= (z + 2 ^ 31) / 2 ^ 32) by (apply Z.div_pos; lia). lia.
Qed.

Lemma to_long_id z : - 2 ^ 63 <= z < 2 ^ 63 → to_long z = z.
Proof. unfold to_long. intros. rewrite Z.mod_small by lia. lia. Qed.

End MachineFacts.

(** ** Strides *)

Section Strides.
Implicit Types shape idx : list Z.

Lemma shape_size_cons n shape : shape_size (n :: shape) = n * shape_size shape.
Proof. reflexivity. Qed.

Lemma row_major_strides_cons n shape :
  row_major_strides (n :: shape) = shape_size shape :: row_major_strides shape.
Proof.
  unfold row_major_strides. cbn [length seq fmap list_fmap drop].
  f_equal. rewrite <- fmap_S_seq, <- list_fmap_compose. reflexivity.
Qed.

Lemma length_row_major_strides shape :
  length (row_major_strides shape) = length shape.
Proof. unfold row_major_strides. by rewrite length_fmap, length_seq. Qed.

Lemma lookup_row_major_strides shape (k : nat) :
  (k < length shape)%nat →
  row_major_strides shape !! k = Some (shape_size (drop (S k) shape)).
Proof.
  intros Hk. unfold row_major_strides.
  by rewrite list_lookup_fmap, lookup_seq_lt.
Qed.

(** The invariant of the constructor's loop: the entries from [i] on are
    final, and [data_size] is the wrapped product of the extents from
    [i] on. *)
Lemma strides_loop_spec shape (i : nat) (ms : list Z) data_size :
  length ms = length shape →
  (i ≤ length shape)%nat →
  data_size = to_size_t (shape_size (drop i shape)) →
  (∀ k : nat, (i ≤ k < length shape)%nat →
     ms !! k = Some (to_size_t (shape_size (drop (S k) shape)))) →
  let r := strides_loop shape i ms data_size in
  length r = length shape ∧
  ∀ k : nat, (k < length shape)%nat →
     r !! k = Some (to_size_t (shape_size (drop (S k) shape))).
Proof.
  revert ms data_size.
  induction i as [|j IH]; intros ms data_size Hlen Hi Hds Hms; cbn [strides_loop].
  - split; [done|]. intros k Hk. apply Hms. lia.
  - assert (Hj : (j < length ms)%nat) by lia.
    destruct (lookup_lt_is_Some_2 shape j ltac:(lia)) as [n Hn].
    rewrite list_lookup_insert_eq by done. rewrite Hn. cbn [default from_option id].
    apply IH.
    + by rewrite length_insert.
    + lia.
    + rewrite (drop_S _ _ _ Hn), shape_size_cons, Hds.
      rewrite to_size_t_mul_l. f_equal. lia.
    + intros k Hk. destruct (decide (k = j)) as [->|Hne].
      * rewrite list_lookup_insert_eq by done. by rewrite Hds.
      * rewrite list_lookup_insert_ne by done. apply Hms. lia.
Qed.

Lemma compute_strides_spec shape :
  length (compute_strides shape) = length shape ∧
  ∀ k : nat, (k < length shape)%nat →
    compute_strides shape !! k = Some (to_size_t (shape_size (drop (S k) shape))).
Proof.
  unfold compute_strides. apply strides_loop_spec.
  - apply length_replicate.
  - done.
  - by rewrite drop_all.
  - intros k Hk. lia.
Qed.

(** The stored strides are the row-major strides reduced modulo 2^64. *)
Lemma compute_strides_wrapped shape :
  compute_strides shape = to_size_t <$> row_major_strides shape.
Proof.
  destruct (compute_strides_spec shape) as [Hlen Hk].
  apply list_eq. intros k. rewrite list_lookup_fmap.
  destruct (decide (k < length shape)%nat) as [Hlt|Hge].
  - by rewrite Hk, lookup_row_major_strides.
  - rewrite !lookup_ge_None_2; [done| |].
    + rewrite length_row_major_strides. lia.
    + lia.
Qed.

End Strides.

(** ** The linear draw position *)

Section Position.
Implicit Types shape idx strides : list Z.

(** The accumulation of [std::inner_product] is the dot product
    converted to [int]. *)
Lemma inner_product_to_int idx strides init :
  inner_product idx strides init = to_int (init + dot idx strides) ∨
  (inner_product idx strides init = init ∧ dot idx strides = 0).
Proof.
  revert strides init. induction idx as [|a idx IH]; intros [|s strides] init;
    cbn [inner_product dot]; try (right; done).
  left. rewrite to_int_step.
  destruct (IH strides (to_int (init + a * s))) as [->|[-> ->]].
  - rewrite to_int_add_l. f_equal. lia.
  - rewrite Z.add_0_r. f_equal.
Qed.

Lemma inner_product_dot idx strides :
  inner_product idx strides 0 = to_int (dot idx strides).
Proof.
  destruct (inner_product_to_int idx strides 0) as [->|[-> ->]]; [done|].
  reflexivity.
Qed.

(** Strides enter the position modulo 2^32 only, so their reduction
    modulo 2^64 by the constructor is invisible after the conversion. *)
Lemma dot_wrapped_strides_multiple idx strides :
  ∃ k, dot idx (to_size_t <$> strides) = dot idx strides + k * 2 ^ 32.
Proof.
  revert strides. induction idx as [|a idx IH]; intros [|s strides];
    cbn [dot fmap list_fmap]; try (exists 0; lia).
  destruct (IH strides) as [k ->].
  exists (k - a * 2 ^ 32 * (s / 2 ^ 64)).
  unfold to_size_t. rewrite (Z.mod_eq s (2 ^ 64)) by lia. lia.
Qed.

Lemma dot_wrapped_strides idx strides :
  to_int (dot idx (to_size_t <$> strides)) = to_int (dot idx strides).
Proof.
  destruct (dot_wrapped_strides_multiple idx strides) as [k ->].
  apply to_int_shift.
Qed.

(** The position that [access_impl] computes for an object constructed
    from [shape]. *)
Lemma inner_product_compute_strides shape idx :
  inner_product idx (compute_strides shape) 0 = to_int (linear_position shape idx).
Proof.
  rewrite inner_product_dot, compute_strides_wrapped.
  apply dot_wrapped_strides.
Qed.

Lemma inner_product_cast idx strides init :
  inner_product (to_size_t <$> idx) strides init = inner_product idx strides init.
Proof.
  revert strides init. induction idx as [|a idx IH]; intros [|s strides] init;
    cbn [inner_product fmap list_fmap]; try done.
  rewrite to_size_t_idemp. apply IH.
Qed.

Lemma linear_position_cons n shape i idx :
  linear_position (n :: shape) (i :: idx)
  = i * shape_size shape + linear_position shape idx.
Proof. unfold linear_position. by rewrite row_major_strides_cons. Qed.

Lemma valid_index_extents shape idx :
  valid_index shape idx → Forall (fun n => 0 < n) shape.
Proof.
  induction 1 as [|i n idx shape Hi _ IH]; constructor; [lia|done].
Qed.

Lemma shape_size_nonneg shape : Forall (fun n => 0 <= n) shape → 0 <= shape_size shape.
Proof.
  induction 1 as [|n shape Hn _ IH]; [done|].
  rewrite shape_size_cons. lia.
Qed.

(** A valid index has its position inside the array. *)
Lemma linear_position_bound shape idx :
  valid_index shape idx → 0 <= linear_position shape idx < shape_size shape.
Proof.
  induction 1 as [|i n idx shape Hi _ IH].
  - unfold linear_position, shape_size. cbn. lia.
  - rewrite linear_position_cons, shape_size_cons. nia.
Qed.

End Position.

(** ** Streams and traces *)

Section Streams.
Context {E Raw V D : Type} `{!Engine E Raw} `{!Distribution D Raw V}.
Implicit Types (d : D) (e : E) (tr : list (event E)).

Lemma after_draws_S n d e :
  after_draws (S n) d e
  = ((sample (after_draws n d e).1 (after_draws n d e).2).1.2,
     (sample (after_draws n d e).1 (after_draws n d e).2).2).
Proof.
  revert d e. induction n as [|n IH]; intros d e.
  - cbn [after_draws fst snd]. by destruct (sample d e) as [[v d'] e'].
  - change (after_draws (S (S n)) d e)
      with (let '(_, d', e') := sample d e in after_draws (S n) d' e').
    change (after_draws (S n) d e)
      with (let '(_, d', e') := sample d e in after_draws n d' e').
    destruct (sample d e) as [[v d'] e']. apply IH.
Qed.

Lemma lookup_fresh_draws n d e (k : nat) :
  (k < n)%nat → fresh_draws n d e !! k = Some (nth_draw k d e).
Proof.
  revert d e k. induction n as [|n IH]; intros d e k Hk; [lia|].
  cbn [fresh_draws]. unfold nth_draw.
  destruct k as [|k].
  - cbn [after_draws]. by destruct (sample d e) as [[v d'] e'].
  - cbn [after_draws]. destruct (sample d e) as [[v d'] e'].
    rewrite lookup_cons_ne_0 by done. cbn [pred]. by rewrite IH by lia.
Qed.

Lemma length_fresh_draws n d e : length (fresh_draws n d e) = n.
Proof.
  revert d e. induction n as [|n IH]; intros d e; [done|].
  cbn [fresh_draws]. destruct (sample d e) as [[v d'] e']. cbn. by rewrite IH.
Qed.

Lemma fresh_draws_seq n d e :
  fresh_draws n d e = (fun k => nth_draw k d e) <$> seq 0 n.
Proof.
  apply list_eq. intros k. rewrite list_lookup_fmap.
  destruct (decide (k < n)%nat).
  - by rewrite lookup_fresh_draws, lookup_seq_lt.
  - rewrite !lookup_ge_None_2; [done| |]; rewrite ?length_seq, ?length_fresh_draws; lia.
Qed.

Lemma draws_since_rewind_app tr1 tr2 acc :
  draws_since_rewind (tr1 ++ tr2) acc
  = draws_since_rewind tr2 (draws_since_rewind tr1 acc).
Proof.
  revert acc. induction tr1 as [|[e| |] tr1 IH]; intros acc; cbn; auto.
Qed.

Lemma has_rewind_app tr1 tr2 :
  has_rewind (tr1 ++ tr2) = has_rewind tr1 || has_rewind tr2.
Proof. apply existsb_app. Qed.

Lemma raw_states_app tr1 tr2 :
  raw_states (tr1 ++ tr2) = raw_states tr1 ++ raw_states tr2.
Proof. apply omap_app. Qed.

(** A call of the distribution leaves nothing but raw requests. *)
Lemma run_sampler_trace (t : sampler Raw V D) e acc :
  draws_since_rewind (run_sampler t e).2 acc = acc
  ∧ has_rewind (run_sampler t e).2 = false.
Proof.
  revert e. induction t as [v d|k IH]; intros e; cbn [run_sampler]; [done|].
  destruct (engine_call e) as [r e'].
  specialize (IH r e'). destruct (run_sampler (k r) e') as [res tr].
  cbn in *. done.
Qed.

Lemma draw_events_count d0 e0 j acc :
  draws_since_rewind (draw_events d0 e0 j) acc = acc + 1
  ∧ has_rewind (draw_events d0 e0 j) = false.
Proof.
  unfold draw_events. cbn [draws_since_rewind has_rewind existsb orb].
  apply run_sampler_trace.
Qed.

Lemma draws_events_S d0 e0 from n :
  draws_events d0 e0 from (S n)
  = draw_events d0 e0 from ++ draws_events d0 e0 (S from) n.
Proof. reflexivity. Qed.

Lemma draws_events_count d0 e0 from n acc :
  draws_since_rewind (draws_events d0 e0 from n) acc = acc + Z.of_nat n
  ∧ has_rewind (draws_events d0 e0 from n) = false.
Proof.
  revert from acc. induction n as [|n IH]; intros from acc.
  - cbn. split; [lia|done].
  - rewrite draws_events_S, draws_since_rewind_app, has_rewind_app.
    destruct (draw_events_count d0 e0 from acc) as [-> ->].
    destruct (IH (S from) (acc + 1)) as [-> ->]. split; [lia|done].
Qed.

Lemma draws_events_1 d0 e0 from :
  draws_events d0 e0 from 1 = draw_events d0 e0 from.
Proof. unfold draws_events. cbn [seq mbind list_bind]. apply app_nil_r. Qed.

Lemma draws_events_snoc d0 e0 from n :
  draws_events d0 e0 from (S n)
  = draws_events d0 e0 from n ++ draw_events d0 e0 (from + n).
Proof.
  unfold draws_events. rewrite seq_S, bind_app. f_equal.
  cbn. by rewrite app_nil_r.
Qed.

End Streams.

(** ** The accessor *)

Section Primitives.
Context {E Raw V D : Type} `{!Engine E Raw} `{!Distribution D Raw V}.
Variables (e0 : E) (d0 : D).
Implicit Types (s : random_impl E D) (idx : list Z).

#[local] Arguments to_long : simpl never.
#[local] Arguments draw_events : simpl never.
#[local] Arguments draws_events : simpl never.

(** [m_dist(m_engine)] when distribution and engine are [k] draws into
    the stream: it serves draw number [k]. *)
Lemma call_dist_at s (k : nat) :
  (m_dist s, m_engine s) = after_draws k d0 e0 →
  ∃ s', call_dist s = (nth_draw k d0 e0, s', draw_events d0 e0 k)
    ∧ (m_dist s', m_engine s') = after_draws (S k) d0 e0
    ∧ m_strides s' = m_strides s
    ∧ m_engine_state s' = m_engine_state s
    ∧ m_advance_state s' = m_advance_state s.
Proof.
  intros Hs. unfold call_dist, nth_draw, draw_events.
  rewrite after_draws_S, <- Hs. cbn [fst snd]. unfold sample.
  destruct (run_sampler _ _) as [[[v d] e] tr]. cbn.
  eexists. split; [reflexivity|done].
Qed.

(** The replay loop draws [advance_state - c] times when the cursor [c]
    is below [advance_state], not at all otherwise, and leaves through
    its test in both cases. *)
Lemma discard_loop_spec (n : nat) s advance_state (k : nat) :
  - 2 ^ 63 <= m_advance_state s →
  advance_state < 2 ^ 63 →
  n = Z.to_nat (advance_state - m_advance_state s) →
  (m_dist s, m_engine s) = after_draws k d0 e0 →
  ∃ s', discard_loop n advance_state s = (tt, s', draws_events d0 e0 k n)
    ∧ (m_dist s', m_engine s') = after_draws (k + n) d0 e0
    ∧ m_strides s' = m_strides s
    ∧ m_engine_state s' = m_engine_state s
    ∧ m_advance_state s' = Z.max (m_advance_state s) advance_state.
Proof.
  revert s k. induction n as [|n IH]; intros s k Hlo Hhi Hn Hs.
  - exists s. cbn. rewrite Nat.add_0_r. repeat split; [done|lia].
  - cbn [discard_loop]. unfold bind at 1, gets at 1.
    destruct (Z.ltb_spec (m_advance_state s) advance_state) as [Hlt|Hge]; [|lia].
    unfold bind at 1.
    destruct (call_dist_at s k Hs) as (s1 & -> & Hs1 & Hstr1 & Hss1 & Hc1).
    unfold bind at 1, incr_advance_state at 1, modify at 1.
    rewrite Hc1, to_long_id by lia.
    destruct (IH (set_advance_state (m_advance_state s + 1) s1) (S k))
      as (s2 & -> & Hs2 & Hstr2 & Hss2 & Hc2); cbn; [lia|lia|lia|done|].
    exists s2. rewrite draws_events_S.
    replace (k + S n)%nat with (S k + n)%nat by lia.
    cbn in Hstr2, Hss2, Hc2. repeat split; [done|congruence|congruence|lia].
Qed.

Lemma full_reset_spec s :
  m_engine_state s = snapshot_of e0 →
  ∃ s', full_reset s = (tt, s', [EvRewind])
    ∧ m_engine s' = e0
    ∧ m_dist s' = dist_reset (m_dist s)
    ∧ m_strides s' = m_strides s
    ∧ m_engine_state s' = snapshot_of e0
    ∧ m_advance_state s' = 0.
Proof.
  intros Hs. destruct s as [e d st ss c]. cbn in Hs. subst ss.
  unfold full_reset, bind, emit, modify. cbn. eexists. split; [reflexivity|done].
Qed.

Lemma access_events_count c adv :
  -1 <= c →
  draws_since_rewind (access_events d0 e0 c adv) (c + 1) = Z.max 0 adv + 1
  ∧ has_rewind (access_events d0 e0 c adv) = bool_decide (adv < c + 1).
Proof.
  intros Hc. unfold access_events. case_decide as Hlt.
  - rewrite bool_decide_eq_true_2 by done.
    cbn [draws_since_rewind has_rewind existsb orb].
    destruct (draws_events_count d0 e0 0 (Z.to_nat (Z.max 0 adv + 1)) 0) as [-> _].
    split; [lia|done].
  - rewrite bool_decide_eq_false_2 by done.
    destruct (draws_events_count d0 e0 (Z.to_nat (c + 1))
                (Z.to_nat (Z.max 0 adv - c)) (c + 1)) as [-> ->].
    split; [lia|done].
Qed.

Lemma mk_random_impl_inv shape :
  inv e0 d0 (compute_strides shape) (mk_random_impl e0 d0 shape).
Proof. split; cbn; [done|done|lia|done]. Qed.

End Primitives.

Section Access.
Context {E Raw V D : Type} `{!Engine E Raw} `{!Distribution D Raw V}.
Implicit Types (s : random_impl E D) (idx : list Z).

#[local] Arguments to_long : simpl never.
#[local] Arguments inner_product : simpl never.
#[local] Arguments draw_events : simpl never.
#[local] Arguments draws_events : simpl never.
#[local] Arguments call_dist : simpl never.
#[local] Arguments full_reset : simpl never.
#[local] Arguments discard_loop : simpl never.

(** One call of the accessor on an object in a state between calls.
    The stream it draws from starts at the snapshot [e0] with the
    distribution that the last [reset] left ([d0] when there was none);
    the call serves draw number [max 0 advance_state] of that stream and
    leaves the cursor on that number. *)
Lemma access_impl_step e0 d0 strides s idx :
  inv e0 d0 strides s →
  let adv := inner_product idx strides 0 in
  let d1 := if decide (adv < m_advance_state s + 1)
            then dist_reset (m_dist s) else d0 in
  ∃ s', access_impl idx s
        = (nth_draw (Z.to_nat (Z.max 0 adv)) d1 e0, s',
           access_events d1 e0 (m_advance_state s) adv)
    ∧ inv e0 d1 strides s'
    ∧ m_advance_state s' = Z.max 0 adv.
Proof.
  intros [Hstr Hsnap Hc Hst] adv d1.
  pose proof (to_int_range (dot idx strides)) as Hadv.
  rewrite <- inner_product_dot in Hadv. fold adv in Hadv. unfold is_int in Hadv.
  assert (Hstream : ∀ c, (m_dist (set_advance_state c s), m_engine (set_advance_state c s))
                       = after_draws (Z.to_nat (m_advance_state s + 1)) d0 e0) by done.
  specialize (Hstream (m_advance_state s + 1)).
  unfold access_impl, bind, gets, incr_advance_state, modify, ret.
  rewrite Hstr. fold adv. cbn.
  rewrite to_long_id by lia.
  set (s1 := set_advance_state (m_advance_state s + 1) s) in *.
  assert (Hstr1 : m_strides s1 = strides) by done.
  assert (Hsnap1 : m_engine_state s1 = snapshot_of e0) by done.
  assert (Hc1 : m_advance_state s1 = m_advance_state s + 1) by done.
  assert (Hd1 : m_dist s1 = m_dist s) by done.
  clearbody s1. unfold access_events. subst d1.
  destruct (Z.eqb_spec (m_advance_state s + 1) adv) as [Heq|Hne].
  - (* the next draw of the sequence *)
    destruct (call_dist_at e0 d0 s1 _ Hstream) as (s' & -> & Hs' & Hstr' & Hss' & Hc').
    exists s'. rewrite !decide_False by lia.
    replace (Z.to_nat (Z.max 0 adv - m_advance_state s)) with 1%nat by lia.
    rewrite draws_events_1.
    replace (Z.max 0 adv) with (m_advance_state s + 1) by lia.
    split; [done|]. split; [|congruence].
    split; [congruence|congruence|lia|].
    rewrite Hs', Hc', Hc1. f_equal. lia.
  - destruct (Z.ltb_spec adv (m_advance_state s + 1)) as [Hback|Hfwd].
    + (* a position at or behind the cursor: rewind and replay *)
      destruct (full_reset_spec e0 s1 Hsnap1)
        as (s2 & -> & He2 & Hd2 & Hstr2 & Hss2 & Hc2).
      rewrite !decide_True by lia.
      assert (Hs2 : (m_dist s2, m_engine s2)
                    = after_draws 0 (dist_reset (m_dist s)) e0).
      { cbn. by rewrite He2, Hd2, Hd1. }
      destruct (discard_loop_spec e0 _ (Z.to_nat (adv - m_advance_state s2)) s2 adv 0
                  ltac:(lia) ltac:(lia) eq_refl Hs2)
        as (s3 & -> & Hs3 & Hstr3 & Hss3 & Hc3).
      rewrite Hc2 in *. rewrite Z.sub_0_r in *.
      destruct (call_dist_at e0 _ s3 _ Hs3) as (s' & -> & Hs' & Hstr' & Hss' & Hc').
      exists s'. cbn [fst snd app].
      replace (Z.to_nat (Z.max 0 adv + 1)) with (S (Z.to_nat adv)) by lia.
      rewrite draws_events_snoc.
      replace (Z.to_nat (Z.max 0 adv)) with (0 + Z.to_nat adv)%nat by lia.
      split; [done|]. split; [|lia].
      split; [congruence|congruence|lia|].
      rewrite Hs', Hc', Hc3. f_equal. lia.
    + (* a position ahead of the cursor: replay from the cursor *)
      destruct (discard_loop_spec e0 d0 (Z.to_nat (adv - m_advance_state s1)) s1 adv
                  (Z.to_nat (m_advance_state s + 1)) ltac:(lia) ltac:(lia) eq_refl Hstream)
        as (s3 & -> & Hs3 & Hstr3 & Hss3 & Hc3).
      rewrite Hc1 in *.
      destruct (call_dist_at e0 d0 s3 _ Hs3) as (s' & -> & Hs' & Hstr' & Hss' & Hc').
      exists s'. rewrite !decide_False by lia. cbn [fst snd app].
      replace (Z.to_nat (Z.max 0 adv - m_advance_state s))
        with (S (Z.to_nat (adv - (m_advance_state s + 1)))) by lia.
      rewrite draws_events_snoc.
      replace (Z.to_nat (Z.max 0 adv))
        with (Z.to_nat (m_advance_state s + 1)
              + Z.to_nat (adv - (m_advance_state s + 1)))%nat by lia.
      split; [done|]. split; [|lia].
      split; [congruence|congruence|lia|].
      rewrite Hs', Hc', Hc3. f_equal. lia.
Qed.

(** When [reset] restores the distribution the object was constructed
    with, every call draws from one and the same stream. *)
Lemma access_impl_spec e0 d0 strides s idx :
  resets_to_initial d0 e0 →
  inv e0 d0 strides s →
  let adv := inner_product idx strides 0 in
  ∃ s', access_impl idx s
        = (nth_draw (served_draw strides idx) d0 e0, s',
           access_events d0 e0 (m_advance_state s) adv)
    ∧ inv e0 d0 strides s'
    ∧ m_advance_state s' = Z.max 0 adv.
Proof.
  intros Hreset Hinv adv.
  destruct (access_impl_step e0 d0 strides s idx Hinv) as (s' & Heq & Hinv' & Hc').
  fold adv in Heq, Hinv', Hc'.
  assert (Hd : (if decide (adv < m_advance_state s + 1)
                then dist_reset (m_dist s) else d0) = d0).
  { case_decide; [|done].
    change (m_dist s) with (m_dist s, m_engine s).1.
    rewrite (inv_stream _ _ _ _ Hinv). apply Hreset. }
  rewrite Hd in Heq, Hinv'. by exists s'.
Qed.

Lemma read_all_cons idx (l : list (list Z)) s :
  read_all (idx :: l) s
  = (value_of (access_impl idx s)
       :: value_of (read_all l (state_of (access_impl idx s))),
     state_of (read_all l (state_of (access_impl idx s))),
     trace_of (access_impl idx s)
       ++ trace_of (read_all l (state_of (access_impl idx s)))).
Proof.
  cbn [read_all]. unfold bind, ret, value_of, state_of, trace_of.
  destruct (access_impl idx s) as [[v s1] t1]. cbn [fst snd].
  destruct (read_all l s1) as [[vs s2] t2]. cbn [fst snd].
  by rewrite app_nil_r.
Qed.

(** Successive reads: every read is served the draw of its own index,
    whatever was read before. *)
Lemma read_all_spec e0 d0 strides (l : list (list Z)) s :
  resets_to_initial d0 e0 →
  inv e0 d0 strides s →
  ∃ s' tr, read_all l s
           = ((fun idx => nth_draw (served_draw strides idx) d0 e0) <$> l, s', tr)
    ∧ inv e0 d0 strides s'.
Proof.
  intros Hreset. revert s. induction l as [|idx l IH]; intros s Hinv.
  - exists s, []. done.
  - rewrite read_all_cons.
    destruct (access_impl_spec e0 d0 strides s idx Hreset Hinv) as (s1 & -> & Hinv1 & Hc1).
    unfold value_of, state_of, trace_of. cbn [fst snd].
    destruct (IH s1 Hinv1) as (s2 & tr & -> & Hinv2).
    cbn [fst snd fmap list_fmap]. eexists _, _. split; [reflexivity|done].
Qed.

Section Projections.
Variables (e0 : E) (d0 : D) (strides : list Z).
Hypothesis Hreset : resets_to_initial d0 e0.

Lemma access_impl_value s idx :
  inv e0 d0 strides s →
  value_of (access_impl idx s) = nth_draw (served_draw strides idx) d0 e0.
Proof.
  intros Hinv.
  by destruct (access_impl_spec e0 d0 strides s idx Hreset Hinv) as (s' & -> & _).
Qed.

Lemma access_impl_inv s idx :
  inv e0 d0 strides s → inv e0 d0 strides (state_of (access_impl idx s)).
Proof.
  intros Hinv.
  by destruct (access_impl_spec e0 d0 strides s idx Hreset Hinv) as (s' & -> & ? & _).
Qed.

Lemma read_all_values l s :
  inv e0 d0 strides s →
  value_of (read_all l s)
  = (fun idx => nth_draw (served_draw strides idx) d0 e0) <$> l.
Proof.
  intros Hinv.
  by destruct (read_all_spec e0 d0 strides l s Hreset Hinv) as (s' & tr & -> & _).
Qed.

Lemma read_all_inv l s :
  inv e0 d0 strides s → inv e0 d0 strides (state_of (read_all l s)).
Proof.
  intros Hinv.
  by destruct (read_all_spec e0 d0 strides l s Hreset Hinv) as (s' & tr & -> & ?).
Qed.

Lemma materialize_values shape :
  strides = compute_strides shape →
  materialize e0 d0 shape
  = (fun idx => nth_draw (served_draw strides idx) d0 e0) <$> all_indices shape.
Proof.
  intros Hs. unfold materialize. apply read_all_values.
  rewrite Hs. apply mk_random_impl_inv.
Qed.

End Projections.

(** The cursor after any number of reads, for any distribution: one
    less than the number of draws since the last rewind. *)
Lemma read_all_cursor e0 d0 strides (l : list (list Z)) s :
  inv e0 d0 strides s →
  (∃ d1, inv e0 d1 strides (state_of (read_all l s)))
  ∧ draws_since_rewind (trace_of (read_all l s)) (m_advance_state s + 1)
    = m_advance_state (state_of (read_all l s)) + 1.
Proof.
  revert s d0. induction l as [|idx l IH]; intros s d0 Hinv.
  - cbn. split; [by exists d0|done].
  - rewrite read_all_cons.
    destruct (access_impl_step e0 d0 strides s idx Hinv) as (s1 & -> & Hinv1 & Hc1).
    unfold value_of, state_of, trace_of in *. cbn [fst snd].
    destruct (IH s1 _ Hinv1) as [Hinv2 Htr].
    split; [done|].
    rewrite draws_since_rewind_app.
    destruct (access_events_count e0
                (if decide (inner_product idx strides 0 < m_advance_state s + 1)
                 then dist_reset (m_dist s) else d0)
                (m_advance_state s) (inner_product idx strides 0)) as [-> _];
      [apply Hinv|].
    by rewrite <- Hc1.
Qed.

End Access.

Section Termination.
Context {E Raw V D : Type} `{!Engine E Raw} `{!Distribution D Raw V}.

(** The fuel that [access_impl] hands to the replay loop never runs out
    before the loop test fails: afterwards the cursor is not below the
    requested position, from any state of the object. *)
Lemma discard_loop_exits (s : random_impl E D) advance_state :
  - 2 ^ 63 <= m_advance_state s →
  advance_state < 2 ^ 63 →
  ¬ m_advance_state
      (state_of (discard_loop (Z.to_nat (advance_state - m_advance_state s))
                   advance_state s)) < advance_state.
Proof.
  intros Hlo Hhi.
  destruct (discard_loop_spec (m_engine s) (m_dist s) _ s advance_state 0
              Hlo Hhi eq_refl eq_refl) as (s' & -> & _ & _ & _ & Hc).
  unfold state_of. cbn [fst snd]. lia.
Qed.

End Termination.

(** ** The row-major enumeration of indices *)

Section Enumeration.
Implicit Types shape idx : list Z.

(** Lookup in a concatenation of blocks that all have the same length. *)
Lemma lookup_bind_blocks {A B} (f : A → list B) (T : nat) (l : list A)
    (i p : nat) x :
  (∀ y, length (f y) = T) →
  l !! i = Some x →
  (p < T)%nat →
  (l ≫= f) !! (i * T + p)%nat = f x !! p.
Proof.
  intros Hlen. revert i. induction l as [|y l IH]; intros i Hi Hp; [done|].
  rewrite bind_cons. destruct i as [|i].
  - injection Hi as ->. rewrite lookup_app_l; [done|]. rewrite Hlen. lia.
  - rewrite lookup_app_r by (rewrite Hlen; lia).
    rewrite Hlen. replace (S i * T + p - T)%nat with (i * T + p)%nat by lia.
    by apply IH.
Qed.

Lemma fmap_bind {A B C} (g : B → C) (f : A → list B) (l : list A) :
  g <$> (l ≫= f) = l ≫= fun x => g <$> f x.
Proof.
  induction l as [|x l IH]; [done|].
  by rewrite !bind_cons, fmap_app, IH.
Qed.

(** Consecutive blocks of length [T] make up an initial segment. *)
Lemma seqZ_blocks (n : nat) T :
  0 <= T →
  (seqZ 0 (Z.of_nat n) ≫= fun i => Z.add (i * T) <$> seqZ 0 T)
  = seqZ 0 (Z.of_nat n * T).
Proof.
  intros HT. induction n as [|n IH]; [done|].
  rewrite seqZ_S, bind_app, IH. cbn [mbind list_bind]. rewrite app_nil_r.
  rewrite fmap_add_seqZ, Z.add_0_r, Z.add_0_l.
  replace (Z.of_nat (S n) * T) with (Z.of_nat n * T + T) by lia.
  rewrite seqZ_app by lia. done.
Qed.

(** The positions of the indices of [all_indices] are 0, 1, 2, ... *)
Lemma positions_all_indices shape :
  Forall (fun n => 0 <= n) shape →
  linear_position shape <$> all_indices shape = seqZ 0 (shape_size shape).
Proof.
  induction 1 as [|n shape Hn Hshape IH]; [done|].
  cbn [all_indices]. rewrite shape_size_cons.
  rewrite fmap_bind.
  rewrite <- (Z2Nat.id n) at 2 by done.
  rewrite <- seqZ_blocks by by apply shape_size_nonneg.
  rewrite Z2Nat.id by done.
  apply list_bind_ext; [|done]. intros i.
  rewrite <- IH, <- !list_fmap_compose.
  apply list_fmap_ext. intros j idx _. cbn. apply (linear_position_cons n).
Qed.

Lemma length_all_indices shape :
  Forall (fun n => 0 <= n) shape →
  length (all_indices shape) = Z.to_nat (shape_size shape).
Proof.
  intros Hshape.
  rewrite <- (length_fmap (linear_position shape)), positions_all_indices by done.
  apply length_seqZ.
Qed.

(** A valid index sits in the enumeration at its linear position. *)
Lemma lookup_all_indices shape idx :
  valid_index shape idx →
  all_indices shape !! Z.to_nat (linear_position shape idx) = Some idx.
Proof.
  induction 1 as [|i n idx shape Hi Hidx IH]; [done|].
  rewrite linear_position_cons. cbn [all_indices].
  pose proof (linear_position_bound shape idx Hidx) as Hp.
  assert (Hnn : Forall (fun n => 0 <= n) shape).
  { eapply Forall_impl; [by eapply valid_index_extents|]. cbn. lia. }
  replace (Z.to_nat (i * shape_size shape + linear_position shape idx))
    with (Z.to_nat i * Z.to_nat (shape_size shape)
          + Z.to_nat (linear_position shape idx))%nat by lia.
  rewrite (lookup_bind_blocks _ (Z.to_nat (shape_size shape)) _ _ _ i).
  - by rewrite list_lookup_fmap, IH.
  - intros y. by rewrite length_fmap, length_all_indices.
  - apply lookup_seqZ. lia.
  - lia.
Qed.

Lemma all_indices_valid shape idx :
  idx ∈ all_indices shape → valid_index shape idx.
Proof.
  revert idx. induction shape as [|n shape IH]; intros idx.
  - cbn. intros ->%list_elem_of_singleton. constructor.
  - cbn [all_indices]. intros (i & Hidx & Hi)%list_elem_of_bind.
    apply list_elem_of_fmap in Hidx as (idx' & -> & Hidx').
    apply elem_of_seqZ in Hi. constructor; [lia|by apply IH].
Qed.

End Enumeration.

(** ** The concrete collaborators *)

Section ExampleFacts.
Import Examples.

Lemma one_word_resets (e : Z) : resets_to_initial OneWord e.
Proof. intros n. by destruct (after_draws n OneWord e).1. Qed.

Lemma counter_after_draws (k : nat) (e : Z) :
  after_draws k OneWord e = (OneWord, e + Z.of_nat k).
Proof.
  revert e. induction k as [|k IH]; intros e.
  - cbn. f_equal. lia.
  - cbn [after_draws]. unfold sample. cbn. rewrite IH. f_equal. lia.
Qed.

Lemma counter_nth_draw (k : nat) (e : Z) :
  nth_draw k OneWord e = e + Z.of_nat k.
Proof. unfold nth_draw. by rewrite counter_after_draws. Qed.

Lemma counter_fresh_draws_lookup (n k e : Z) :
  0 <= k < n → fresh_draws (Z.to_nat n) OneWord e !! Z.to_nat k = Some (e + k).
Proof.
  intros Hk. rewrite lookup_fresh_draws by lia.
  rewrite counter_nth_draw. f_equal. lia.
Qed.

Lemma counter_discard (z e : Z) : 0 <= z → engine_discard z e = e + z.
Proof.
  intros Hz. unfold engine_discard.
  rewrite <- (Z2Nat.id z) at 2 by done.
  induction (Z.to_nat z) as [|n IH].
  - cbn. lia.
  - rewrite Nat.iter_succ, IH. unfold engine_call, counter_engine. cbn [snd]. lia.
Qed.

End ExampleFacts.

(** ** The scenario of the specification *)

Section Scenario.
Import Examples.

(** Shape [2; 3]: reading [0; 0], [0; 1], [1; 2] and [0; 0] again yields
    the draws 0, 1, 5 and 0.  The engine is asked for the raw values 0 to
    5 once each, then, after a rewind, for the raw value 0 again. *)
Example scenario_2x3 :
  let r := read_all [[0; 0]; [0; 1]; [1; 2]; [0; 0]]
             (mk_random_impl (0 : Z) OneWord [2; 3]) in
  value_of r = [0; 1; 5; 0]
  ∧ raw_states (trace_of r) = [0; 1; 2; 3; 4; 5; 0]
  ∧ has_rewind (trace_of r) = true
  ∧ m_advance_state (state_of r) = 0.
Proof. vm_compute. done. Qed.

(** A distribution that is handed over with a buffered value does not
    satisfy [resets_to_initial]: the first element is the buffered value
    on the first read and a new sample after the first rewind. *)
Example buffered_distribution_rereads :
  value_of (read_all [[0; 0]; [0; 0]]
              (mk_random_impl (0 : Z) (Some 7 : paired) [2; 3])) = [7; 1].
Proof. vm_compute. done. Qed.

End Scenario.

(** * The claims *)

Section Claims.
Context {E Raw V D : Type} `{!Engine E Raw} `{!Distribution D Raw V}.
Implicit Types (e : E) (d : D) (shape idx : list Z) (l : list (list Z)).

(** C1 (order independence).  For an engine state, a distribution (in the
    state its [reset] restores, as a newly constructed one is) and a
    shape, let [l] be any permutation of the valid indices.  Reading the
    indices of [l] in that order from a newly constructed object yields,
    for each index, the value that the same index has when a newly
    constructed object is read in row-major order. *)
Theorem C1_order_independence e d shape l (i j : nat) idx :
  resets_to_initial d e →
  l ≡ₚ all_indices shape →
  l !! i = Some idx →
  all_indices shape !! j = Some idx →
  ∃ v, value_of (read_all l (mk_random_impl e d shape)) !! i = Some v
       ∧ materialize e d shape !! j = Some v.
Proof.
  intros Hreset _ Hi Hj.
  exists (nth_draw (served_draw (compute_strides shape) idx) d e).
  rewrite (materialize_values e d _ Hreset shape eq_refl).
  rewrite (read_all_values e d (compute_strides shape) Hreset) by apply mk_random_impl_inv.
  by rewrite !list_lookup_fmap, Hi, Hj.
Qed.

(** C2 (idempotent re-read).  On one object, in whatever state earlier
    reads left it: reading a valid index, then any sequence of valid
    indices, then the first index again returns the same value twice.
    The distribution is one that the object was constructed with in the
    state its [reset] restores. *)
Theorem C2_idempotent_reread e d shape (pre others : list (list Z)) idx :
  resets_to_initial d e →
  valid_index shape idx →
  Forall (valid_index shape) others →
  let s0 := state_of (read_all pre (mk_random_impl e d shape)) in
  let first := access_impl idx s0 in
  let s1 := state_of (read_all others (state_of first)) in
  value_of (access_impl idx s1) = value_of first.
Proof.
  intros Hreset _ _ s0 first s1.
  assert (Hinv0 : inv e d (compute_strides shape) s0)
    by apply (read_all_inv e d _ Hreset), mk_random_impl_inv.
  assert (Hinv1 : inv e d (compute_strides shape) s1)
    by by apply (read_all_inv e d _ Hreset), (access_impl_inv e d _ Hreset).
  unfold first.
  by rewrite !(access_impl_value e d (compute_strides shape) Hreset).
Qed.

(** C4 (backward jump).  On one object, in whatever state earlier reads
    left it: after the index at linear position [k] has been read, a
    read of an index at a smaller linear position [j] returns the value
    that position [j] has in a row-major materialisation of a newly
    constructed object; when [j] is below 2^31 this is draw number [j]
    of the stream.  The distribution is one that the object was
    constructed with in the state its [reset] restores. *)
Theorem C4_backward_jump e d shape (pre : list (list Z)) idx_k idx_j :
  resets_to_initial d e →
  valid_index shape idx_k →
  valid_index shape idx_j →
  linear_position shape idx_j < linear_position shape idx_k →
  let s0 := state_of (read_all pre (mk_random_impl e d shape)) in
  let s1 := state_of (access_impl idx_k s0) in
  let v := value_of (access_impl idx_j s1) in
  materialize e d shape !! Z.to_nat (linear_position shape idx_j) = Some v
  ∧ (linear_position shape idx_j < 2 ^ 31 →
     v = nth_draw (Z.to_nat (linear_position shape idx_j)) d e).
Proof.
  intros Hreset _ Hj _ s0 s1 v.
  assert (Hinv1 : inv e d (compute_strides shape) s1).
  { apply (access_impl_inv e d _ Hreset), (read_all_inv e d _ Hreset),
      mk_random_impl_inv. }
  unfold v. rewrite (access_impl_value e d (compute_strides shape) Hreset) by done. split.
  - rewrite (materialize_values e d _ Hreset shape eq_refl).
    by rewrite list_lookup_fmap, lookup_all_indices.
  - intros Hint. unfold served_draw.
    rewrite inner_product_compute_strides.
    pose proof (linear_position_bound shape idx_j Hj).
    rewrite to_int_id by (unfold is_int; lia).
    f_equal. lia.
Qed.

End Claims.

Section ClaimWitnesses.
Import Examples.

Lemma C1_order_independence_witness :
  ∃ v, value_of (read_all [[0; 1]; [0; 0]]
                   (mk_random_impl (0 : Z) (None : paired) [1; 2])) !! 1%nat = Some v
       ∧ materialize (0 : Z) (None : paired) [1; 2] !! 0%nat = Some v.
Proof.
  apply (C1_order_independence (0 : Z) (None : paired) [1; 2]
           [[0; 1]; [0; 0]] 1 0 [0; 0]).
  - intros n. reflexivity.
  - apply Permutation_swap.
  - reflexivity.
  - reflexivity.
Defined.

Lemma C2_idempotent_reread_witness :
  value_of (access_impl [0; 1]
              (state_of (read_all [[1; 2]; [0; 0]]
                 (state_of (access_impl [0; 1]
                    (state_of (read_all [[1; 0]]
                       (mk_random_impl (0 : Z) (None : paired) [2; 3]))))))))
  = value_of (access_impl [0; 1]
                (state_of (read_all [[1; 0]]
                   (mk_random_impl (0 : Z) (None : paired) [2; 3])))).
Proof.
  apply (C2_idempotent_reread (0 : Z) (None : paired) [2; 3]
           [[1; 0]] [[1; 2]; [0; 0]] [0; 1]).
  - intros n. reflexivity.
  - repeat constructor; lia.
  - repeat constructor; lia.
Defined.

Lemma C4_backward_jump_witness :
  let v := value_of (access_impl [0; 1]
             (state_of (access_impl [1; 2]
                (state_of (read_all [[0; 0]]
                   (mk_random_impl (0 : Z) (None : paired) [2; 3])))))) in
  materialize (0 : Z) (None : paired) [2; 3]
    !! Z.to_nat (linear_position [2; 3] [0; 1]) = Some v
  ∧ (linear_position [2; 3] [0; 1] < 2 ^ 31 →
     v = nth_draw (Z.to_nat (linear_position [2; 3] [0; 1])) (None : paired) (0 : Z)).
Proof.
  apply (C4_backward_jump (0 : Z) (None : paired) [2; 3] [[0; 0]] [1; 2] [0; 1]).
  - intros n. reflexivity.
  - repeat constructor; lia.
  - repeat constructor; lia.
  - vm_compute. reflexivity.
Defined.

End ClaimWitnesses.

(** ** Claims about the position, the strides and the three accessors *)

Section StaticClaims.
Context {E Raw V D : Type} `{!Engine E Raw} `{!Distribution D Raw V}.

(** C8 (strides), as the code has it.  After construction the strides
    have the length of the shape, the stride of the last dimension is 1,
    and [strides[k]] is the product of the extents after position [k]
    reduced modulo 2^64, the arithmetic of [std::size_t]; it is that
    product itself whenever the product is below 2^64. *)
Theorem C8_strides_modulo_size_t (e : E) (d : D) (shape : list Z) :
  let strides := m_strides (mk_random_impl e d shape) in
  length strides = length shape
  ∧ (shape ≠ [] → last strides = Some 1)
  ∧ (∀ k : nat, (k < length shape)%nat →
       strides !! k = Some (to_size_t (shape_size (drop (S k) shape))))
  ∧ (∀ k : nat, (k < length shape)%nat →
       is_size_t (shape_size (drop (S k) shape)) →
       strides !! k = Some (shape_size (drop (S k) shape))).
Proof.
  cbn [m_strides mk_random_impl].
  destruct (compute_strides_spec shape) as [Hlen Hk].
  split; [done|]. split; [|split].
  - intros Hne. rewrite last_lookup, Hlen.
    destruct shape as [|n shape]; [done|]. cbn [length Nat.pred].
    rewrite Hk by (cbn; lia).
    change (S (length shape)) with (length (n :: shape)).
    by rewrite drop_all.
  - done.
  - intros k Hlt Hfit. by rewrite Hk, to_size_t_id.
Qed.

(** C9 (the position is an [int]).  The linear position that the
    accessor computes is the dot product of index and strides converted
    to [int]: it is the dot product when that fits in a signed 32-bit
    integer, and a different, wrapped number when it does not. *)
Theorem C9_position_in_int (idx strides : list Z) :
  inner_product idx strides 0 = to_int (dot idx strides)
  ∧ is_int (inner_product idx strides 0)
  ∧ (is_int (dot idx strides) → inner_product idx strides 0 = dot idx strides)
  ∧ (¬ is_int (dot idx strides) → inner_product idx strides 0 ≠ dot idx strides).
Proof.
  rewrite inner_product_dot. split; [done|]. split; [apply to_int_range|]. split.
  - apply to_int_id.
  - intros Hout Heq. apply Hout. rewrite <- Heq. apply to_int_range.
Qed.

(** C10 (the three accessors).  The call operator, the subscript
    operator and [element] hand the same components to [access_impl]:
    on the same object they return the same value, leave the object in
    the same state and cause the same events. *)
Theorem C10_accessors_agree (idx : list Z) (s : random_impl E D) :
  operator_call idx s = element idx s
  ∧ operator_index idx s = element idx s.
Proof.
  split; [|done].
  unfold operator_call, element, access_impl, bind, gets.
  by rewrite inner_product_cast.
Qed.

End StaticClaims.

Section StaticWitnesses.
Import Examples.

(** The shape [1; 2^32; 2^32]: the product of the last two extents is
    2^64, the stride stored for the first dimension is 0. *)
Lemma C8_counterexample :
  let shape := [1; 4294967296; 4294967296] in
  let strides := m_strides (mk_random_impl (0 : Z) OneWord shape) in
  strides !! 0%nat = Some 0
  ∧ strides !! 0%nat ≠ Some (shape_size (drop 1 shape)).
Proof. vm_compute. split; [reflexivity|discriminate]. Qed.

Lemma C8_strides_modulo_size_t_witness :
  m_strides (mk_random_impl (0 : Z) OneWord [2; 3; 4]) !! 0%nat
  = Some (shape_size (drop 1 [2; 3; 4])).
Proof.
  apply (C8_strides_modulo_size_t (0 : Z) OneWord [2; 3; 4]).
  - cbn. lia.
  - vm_compute. split; [discriminate|reflexivity].
Defined.

Lemma C9_position_in_int_witness :
  inner_product [1; 2] [3; 1] 0 = dot [1; 2] [3; 1]
  ∧ inner_product [2147483648] [1] 0 ≠ dot [2147483648] [1].
Proof.
  split.
  - apply (C9_position_in_int [1; 2] [3; 1]).
    vm_compute. split; [discriminate|reflexivity].
  - apply (C9_position_in_int [2147483648] [1]).
    vm_compute. intros [_ Hhi]. discriminate Hhi.
Defined.

End StaticWitnesses.

(** ** Claims about the cursor and the factory *)

Section DynamicClaims.
Context {E Raw V D : Type} `{!Engine E Raw} `{!Distribution D Raw V}.

Lemma n_discard_from (shape : list Z) (acc : Z) :
  is_size_t acc →
  foldl (fun acc x => to_size_t (acc * x)) acc shape
  = to_size_t (acc * shape_size shape).
Proof.
  revert acc. induction shape as [|n shape IH]; intros acc Hacc.
  - cbn. rewrite Z.mul_1_r. symmetry. by apply to_size_t_id.
  - cbn [foldl]. rewrite IH by apply to_size_t_range.
    rewrite to_size_t_mul_l, shape_size_cons. f_equal. lia.
Qed.

Lemma n_discard_spec (shape : list Z) :
  n_discard shape = to_size_t (shape_size shape).
Proof.
  unfold n_discard. rewrite n_discard_from by (unfold is_size_t; lia).
  f_equal. lia.
Qed.

(** C6 (the factory advances the caller's engine), as the code has it.
    The generator holds an object constructed from the engine as the
    caller passed it, and the caller's engine is left advanced by the
    number of elements of the shape reduced modulo 2^64, the arithmetic
    of [std::size_t]; the number is computed from the shape alone. *)
Theorem C6_factory_advances_engine (dist : D) (engine : E) (shape : list Z) :
  let r := make_random_xgenerator dist engine shape in
  xg_functor r.1 = mk_random_impl engine dist shape
  ∧ xg_shape r.1 = shape
  ∧ r.2 = engine_discard (to_size_t (shape_size shape)) engine.
Proof.
  unfold make_random_xgenerator. cbn [fst snd xg_functor xg_shape make_xgenerator].
  by rewrite n_discard_spec.
Qed.

(** C7 (the cursor), as the code has it.  The cursor starts at -1.
    Between two calls of the accessor it is one less than the number of
    draws of the distribution since the engine was last restored from
    the snapshot (since construction when it never was): it is the
    number of the draw served last.  A call that does not restore the
    engine leaves the cursor larger than it found it. *)
Theorem C7_cursor_counts_draws (e : E) (d : D) (shape : list Z)
    (l : list (list Z)) (idx : list Z) :
  let r := read_all l (mk_random_impl e d shape) in
  let r' := access_impl idx (state_of r) in
  m_advance_state (mk_random_impl e d shape) = -1
  ∧ m_advance_state (state_of r) = draws_since_rewind (trace_of r) 0 - 1
  ∧ (has_rewind (trace_of r') = false →
     m_advance_state (state_of r) < m_advance_state (state_of r')).
Proof.
  intros r r'. split; [done|].
  destruct (read_all_cursor e d _ l _ (mk_random_impl_inv e d shape))
    as [[d1 Hinv] Hcount].
  fold r in Hinv, Hcount. cbn [m_advance_state mk_random_impl] in Hcount.
  split; [change (-1 + 1) with 0 in Hcount; lia|].
  destruct (access_impl_step e d1 _ _ idx Hinv) as (s' & Hr' & _ & Hc').
  fold r' in Hr'.
  replace (state_of r') with s' by by rewrite Hr'.
  replace (trace_of r') with (r'.2) by done. rewrite Hr'. cbn [snd].
  destruct (access_events_count e
              (if decide (inner_product idx (compute_strides shape) 0
                          < m_advance_state (state_of r) + 1)
               then dist_reset (m_dist (state_of r)) else d1)
              (m_advance_state (state_of r))
              (inner_product idx (compute_strides shape) 0)) as [_ ->];
    [apply Hinv|].
  intros Hfwd%bool_decide_eq_false. lia.
Qed.

End DynamicClaims.

Section DynamicWitnesses.
Import Examples.

(** Two extents of 2^32: the number of elements is 2^64, the factory
    computes 0 and leaves the caller's engine where it was. *)
Lemma C6_counterexample :
  let shape := [4294967296; 4294967296] in
  (make_random_xgenerator OneWord (0 : Z) shape).2 = 0
  ∧ (make_random_xgenerator OneWord (0 : Z) shape).2
    ≠ engine_discard (shape_size shape) (0 : Z).
Proof.
  cbv zeta. unfold make_random_xgenerator. cbn [snd].
  assert (Hn : n_discard [4294967296; 4294967296] = 0) by (vm_compute; reflexivity).
  assert (Hs : shape_size [4294967296; 4294967296] = 18446744073709551616)
    by (vm_compute; reflexivity).
  rewrite Hn, Hs, !counter_discard by lia. split; [reflexivity|lia].
Qed.

(** One read of the first element: the cursor is 0, one draw has been
    consumed. *)
Lemma C7_counterexample :
  let r := access_impl [0; 0] (mk_random_impl (0 : Z) OneWord [2; 3]) in
  m_advance_state (state_of r) = 0
  ∧ draws_since_rewind (trace_of r) 0 = 1
  ∧ m_advance_state (state_of r) ≠ draws_since_rewind (trace_of r) 0.
Proof. vm_compute. repeat split; discriminate. Qed.

Lemma C7_cursor_counts_draws_witness :
  has_rewind (trace_of (access_impl [1; 2]
                (state_of (read_all [[0; 0]; [0; 1]]
                   (mk_random_impl (0 : Z) (None : paired) [2; 3]))))) = false
  ∧ m_advance_state (state_of (read_all [[0; 0]; [0; 1]]
                       (mk_random_impl (0 : Z) (None : paired) [2; 3])))
    < m_advance_state (state_of (access_impl [1; 2]
                        (state_of (read_all [[0; 0]; [0; 1]]
                           (mk_random_impl (0 : Z) (None : paired) [2; 3]))))).
Proof.
  split; [vm_compute; reflexivity|].
  apply (C7_cursor_counts_draws (0 : Z) (None : paired) [2; 3]
           [[0; 0]; [0; 1]] [1; 2]).
  vm_compute. reflexivity.
Defined.

End DynamicWitnesses.

(** ** Row-major traversal against the raw stream *)

Section Traversal.
Context {E Raw V D : Type} `{!Engine E Raw} `{!Distribution D Raw V}.

(** Reads at the positions that follow the cursor one after the other
    never rewind: they are served the draws that follow, for every
    distribution. *)
Lemma read_all_sequential (e0 : E) (d0 : D) strides (l : list (list Z))
    (s : random_impl E D) :
  inv e0 d0 strides s →
  (fun idx => inner_product idx strides 0) <$> l
  = seqZ (m_advance_state s + 1) (Z.of_nat (length l)) →
  value_of (read_all l s)
  = (fun k => nth_draw k d0 e0) <$> seq (Z.to_nat (m_advance_state s + 1)) (length l).
Proof.
  revert s. induction l as [|idx l IH]; intros s Hinv Hpos; [done|].
  rewrite read_all_cons. unfold value_of at 1. cbn [fst length seq fmap list_fmap].
  rewrite seqZ_cons in Hpos by (cbn [length]; lia).
  cbn [fmap list_fmap] in Hpos. injection Hpos as Hidx Hrest.
  destruct (access_impl_step e0 d0 strides s idx Hinv) as (s1 & Heq & Hinv1 & Hc1).
  rewrite Hidx in Heq, Hinv1, Hc1.
  rewrite decide_False in Heq, Hinv1 by lia.
  pose proof (inv_cursor _ _ _ _ Hinv) as Hc.
  rewrite Heq. unfold value_of at 1, state_of. cbn [fst snd].
  f_equal; [f_equal; lia|].
  rewrite IH.
  - by replace (Z.to_nat (m_advance_state s1 + 1))
      with (S (Z.to_nat (m_advance_state s + 1))) by lia.
  - done.
  - rewrite Hrest, Hc1. f_equal; [lia|]. cbn [length]. lia.
Qed.

(** Up to 2^31 elements the row-major traversal of a newly constructed
    object is the sequence of draws of the stream it was constructed
    with, for every distribution. *)
Lemma row_major_traversal_below_int_max (e : E) (d : D) (shape : list Z) :
  Forall (fun n => 0 <= n) shape →
  shape_size shape <= 2 ^ 31 →
  materialize e d shape = fresh_draws (Z.to_nat (shape_size shape)) d e.
Proof.
  intros Hshape Hsize.
  assert (Hpos : (fun idx => inner_product idx (compute_strides shape) 0)
                   <$> all_indices shape
                 = seqZ 0 (shape_size shape)).
  { rewrite <- positions_all_indices by done.
    apply list_fmap_ext. intros i idx Hidx.
    rewrite inner_product_compute_strides. apply to_int_id.
    apply list_elem_of_lookup_2, all_indices_valid, linear_position_bound in Hidx.
    unfold is_int. lia. }
  unfold materialize.
  rewrite (read_all_sequential e d (compute_strides shape)).
  - cbn [m_advance_state mk_random_impl]. rewrite length_all_indices by done.
    by rewrite fresh_draws_seq.
  - apply mk_random_impl_inv.
  - cbn [m_advance_state mk_random_impl]. rewrite Hpos.
    rewrite length_all_indices by done. f_equal.
    pose proof (shape_size_nonneg shape Hshape). lia.
Qed.

(** The element that a valid index has in the materialisation. *)
Lemma materialize_lookup (e : E) (d : D) (shape idx : list Z) :
  resets_to_initial d e →
  valid_index shape idx →
  materialize e d shape !! Z.to_nat (linear_position shape idx)
  = Some (nth_draw (served_draw (compute_strides shape) idx) d e).
Proof.
  intros Hreset Hidx.
  rewrite (materialize_values e d _ Hreset shape eq_refl).
  by rewrite list_lookup_fmap, lookup_all_indices.
Qed.

End Traversal.

Section TraversalBeyondInt.
Import Examples.

(** C3 (row-major traversal reproduces the stream), evaluated on a shape
    of 2^31 + 1 elements.  The last element of the row-major traversal
    has linear position 2^31; [std::inner_product] accumulates in an
    [int], the position becomes -2^31, the accessor rewinds and serves
    draw number 0.  The stream has the value 2^31 at that place. *)
Theorem C3_row_major_beyond_int :
  let shape := [2147483649] in
  inner_product [2147483648] (compute_strides shape) 0 = -2147483648
  ∧ materialize (0 : Z) OneWord shape !! Z.to_nat 2147483648 = Some 0
  ∧ fresh_draws (Z.to_nat (shape_size shape)) OneWord (0 : Z) !! Z.to_nat 2147483648
    = Some 2147483648
  ∧ materialize (0 : Z) OneWord shape
    ≠ fresh_draws (Z.to_nat (shape_size shape)) OneWord (0 : Z).
Proof.
  cbv zeta.
  assert (Hpos : inner_product [2147483648] (compute_strides [2147483649]) 0
                 = -2147483648) by (vm_compute; reflexivity).
  assert (Hlin : linear_position [2147483649] [2147483648] = 2147483648)
    by (vm_compute; reflexivity).
  assert (Hsize : shape_size [2147483649] = 2147483649)
    by (vm_compute; reflexivity).
  assert (Hvalid : valid_index [2147483649] [2147483648])
    by (repeat constructor; lia).
  assert (Hcache : materialize (0 : Z) OneWord [2147483649] !! Z.to_nat 2147483648
                   = Some 0).
  { pose proof (materialize_lookup (0 : Z) OneWord [2147483649] [2147483648]
                  (one_word_resets 0) Hvalid) as Hm.
    unfold served_draw in Hm. rewrite Hlin, Hpos in Hm.
    rewrite Hm. reflexivity. }
  assert (Hstream : fresh_draws (Z.to_nat (shape_size [2147483649])) OneWord (0 : Z)
                      !! Z.to_nat 2147483648 = Some 2147483648).
  { rewrite Hsize.
    apply (counter_fresh_draws_lookup 2147483649 2147483648 0). lia. }
  split; [exact Hpos|]. split; [exact Hcache|]. split; [exact Hstream|].
  intros Heq. rewrite Heq, Hstream in Hcache. discriminate Hcache.
Qed.

End TraversalBeyondInt.

(** ** The raw positions behind the draws *)

Section RawPositions.
Context {E Raw V D : Type} `{!Engine E Raw} `{!Distribution D Raw V}.
Hypothesis Hsingle : ∀ d : D, single_pull (dist_call d).

Lemma engine_discard_succ (z : Z) (e : E) :
  0 <= z →
  engine_discard (z + 1) e = (engine_call (engine_discard z e)).2.
Proof.
  intros Hz. unfold engine_discard.
  replace (Z.to_nat (z + 1)) with (S (Z.to_nat z)) by lia.
  by rewrite Nat.iter_succ.
Qed.

Lemma engine_discard_add (a b : Z) (e : E) :
  0 <= a → 0 <= b →
  engine_discard (a + b) e = engine_discard b (engine_discard a e).
Proof.
  intros Ha Hb. unfold engine_discard.
  replace (Z.to_nat (a + b)) with (Z.to_nat b + Z.to_nat a)%nat by lia.
  apply Nat.iter_add.
Qed.

(** With one raw value per sample, a sample leaves the engine one step
    further and asks it for a value exactly once. *)
Lemma run_sampler_single (d : D) (e : E) :
  (sample d e).2 = (engine_call e).2
  ∧ (run_sampler (dist_call d) e).2 = [EvRaw e].
Proof.
  unfold sample. pose proof (Hsingle d) as Hd.
  destruct (dist_call d) as [v d'|k]; [done|]. cbn [run_sampler single_pull] in *.
  destruct (engine_call e) as [r e']. specialize (Hd r).
  destruct (k r) as [v d'|k']; [|done]. done.
Qed.

Lemma after_draws_engine (j : nat) (d : D) (e : E) :
  (after_draws j d e).2 = engine_discard (Z.of_nat j) e.
Proof.
  induction j as [|j IH]; [done|].
  rewrite after_draws_S. cbn [snd].
  destruct (run_sampler_single (after_draws j d e).1 (after_draws j d e).2) as [-> _].
  rewrite IH, Nat2Z.inj_succ, <- Z.add_1_r.
  symmetry. apply engine_discard_succ. lia.
Qed.

Lemma raw_states_draw_events (d : D) (e : E) (j : nat) :
  raw_states (draw_events d e j) = [engine_discard (Z.of_nat j) e].
Proof.
  unfold draw_events, raw_states. cbn [omap list_omap].
  destruct (run_sampler_single (after_draws j d e).1 (after_draws j d e).2) as [_ ->].
  cbn. by rewrite after_draws_engine.
Qed.

Lemma raw_states_draws_events (d : D) (e : E) (from n : nat) :
  raw_states (draws_events d e from n)
  = (fun j => engine_discard (Z.of_nat j) e) <$> seq from n.
Proof.
  revert from. induction n as [|n IH]; intros from; [done|].
  rewrite draws_events_S, raw_states_app, raw_states_draw_events, IH. done.
Qed.

(** One call of the accessor asks the engine for raw values at positions
    up to the number of the draw it serves, and nowhere else. *)
Lemma raw_states_access_events (d : D) (e : E) (c adv : Z) (x : E) :
  -1 <= c →
  x ∈ raw_states (access_events d e c adv) →
  ∃ j, 0 <= j <= Z.max 0 adv ∧ x = engine_discard j e.
Proof.
  intros Hc. unfold access_events. case_decide as Hlt.
  - change (raw_states (EvRewind :: ?t)) with (raw_states t).
    rewrite raw_states_draws_events.
    intros (j & -> & Hj)%list_elem_of_fmap.
    apply list_elem_of_lookup in Hj as [i [-> Hi]%lookup_seq].
    exists (Z.of_nat (0 + i)). split; [lia|done].
  - rewrite raw_states_draws_events.
    intros (j & -> & Hj)%list_elem_of_fmap.
    apply list_elem_of_lookup in Hj as [i [-> Hi]%lookup_seq].
    exists (Z.of_nat (Z.to_nat (c + 1) + i)). split; [lia|done].
Qed.

(** Successive reads whose draw numbers stay below [bound] touch raw
    positions below [bound] only. *)
Lemma raw_states_read_all (e0 : E) (d0 : D) strides (bound : Z)
    (l : list (list Z)) (s : random_impl E D) (x : E) :
  inv e0 d0 strides s →
  Forall (fun idx => Z.max 0 (inner_product idx strides 0) < bound) l →
  x ∈ raw_states (trace_of (read_all l s)) →
  ∃ j, 0 <= j < bound ∧ x = engine_discard j e0.
Proof.
  intros Hinv Hl. revert s d0 Hinv.
  induction Hl as [|idx l Hidx Hl IH]; intros s d0 Hinv.
  - cbn. by intros ?%elem_of_nil.
  - rewrite read_all_cons. unfold trace_of at 1. cbn [snd].
    rewrite raw_states_app.
    destruct (access_impl_step e0 d0 strides s idx Hinv) as (s1 & Heq & Hinv1 & _).
    intros [Hx|Hx]%elem_of_app.
    + rewrite Heq in Hx. unfold trace_of in Hx. cbn [snd] in Hx.
      apply raw_states_access_events in Hx as (j & Hj & ->); [|apply Hinv].
      exists j. split; [lia|done].
    + rewrite Heq in Hx. unfold state_of at 1 in Hx. cbn [fst snd] in Hx.
      by eapply IH.
Qed.

(** A valid index is served a draw whose number is inside the array,
    even when its position does not fit in an [int]. *)
Lemma served_draw_bound (shape idx : list Z) :
  valid_index shape idx →
  Z.max 0 (inner_product idx (compute_strides shape) 0) < shape_size shape.
Proof.
  intros Hidx. rewrite inner_product_compute_strides.
  pose proof (linear_position_bound shape idx Hidx) as Hp.
  pose proof (to_int_le (linear_position shape idx)). lia.
Qed.

(** Where the factory's advancement does keep two arrays apart: when the
    distribution takes one raw value per sample and the number of
    elements of the first shape fits in [std::size_t], every read of a
    valid index of the first array asks for raw positions below
    [product(shape1)] of the shared stream, and every read of the second
    array for raw positions from [product(shape1)] on. *)
Lemma arrays_apart_one_raw_per_draw (g : E) (d1 d2 : D) (shape1 shape2 : list Z)
    (l1 l2 : list (list Z)) :
  is_size_t (shape_size shape1) →
  Forall (valid_index shape1) l1 →
  let r1 := make_random_xgenerator d1 g shape1 in
  let r2 := make_random_xgenerator d2 r1.2 shape2 in
  (∀ x, x ∈ raw_states (trace_of (read_all l1 (xg_functor r1.1))) →
        ∃ j, 0 <= j < shape_size shape1 ∧ x = engine_discard j g)
  ∧ (∀ x, x ∈ raw_states (trace_of (read_all l2 (xg_functor r2.1))) →
          ∃ j, shape_size shape1 <= j ∧ x = engine_discard j g).
Proof.
  intros Hsize Hl1 r1 r2. split.
  - intros x Hx.
    eapply (raw_states_read_all g d1 (compute_strides shape1)); [| |exact Hx].
    + apply mk_random_impl_inv.
    + eapply Forall_impl; [exact Hl1|]. intros idx. apply served_draw_bound.
  - intros x Hx.
    assert (Hg : r1.2 = engine_discard (shape_size shape1) g).
    { unfold r1, make_random_xgenerator. cbn [snd].
      by rewrite n_discard_spec, to_size_t_id. }
    destruct (raw_states_read_all r1.2 d2 (compute_strides shape2) (2 ^ 31) l2
                (xg_functor r2.1) x) as (j & Hj & ->); [| |exact Hx|].
    + apply mk_random_impl_inv.
    + apply Forall_forall. intros idx _. rewrite inner_product_dot.
      pose proof (to_int_range (dot idx (compute_strides shape2))) as Hr.
      unfold is_int in Hr. lia.
    + exists (shape_size shape1 + j). split; [lia|].
      rewrite Hg. symmetry. apply engine_discard_add; [apply Hsize|lia].
Qed.

End RawPositions.

(** ** Two arrays from one engine *)

Section SharedEngine.
Import Examples.

(** C5 (disjoint slices of the shared stream), evaluated with a
    distribution that takes two raw values per sample.  The first array
    has two elements, so the factory leaves the shared engine two raw
    steps further; the second element of the first array is made of the
    raw values at positions 2 and 3, and so is the first element of the
    second array. *)
Theorem C5_arrays_share_raw_positions :
  let g0 : Z := 0 in
  let r1 := make_random_xgenerator TwoWords g0 [2] in
  let r2 := make_random_xgenerator TwoWords r1.2 [1] in
  let t1 := trace_of (access_impl [1] (xg_functor r1.1)) in
  let t2 := trace_of (access_impl [0] (xg_functor r2.1)) in
  r1.2 = engine_discard 2 g0
  ∧ raw_states t1 = engine_discard 0 g0 :: engine_discard 1 g0
                    :: engine_discard 2 g0 :: engine_discard 3 g0 :: []
  ∧ raw_states t2 = engine_discard 2 g0 :: engine_discard 3 g0 :: []
  ∧ (∃ p, engine_discard p g0 ∈ raw_states t1 ∧ engine_discard p g0 ∈ raw_states t2)
  ∧ value_of (access_impl [1] (xg_functor r1.1))
    = value_of (access_impl [0] (xg_functor r2.1)).
Proof.
  cbv zeta. split; [vm_compute; reflexivity|].
  split; [vm_compute; reflexivity|].
  split; [vm_compute; reflexivity|].
  split; [|vm_compute; reflexivity].
  exists 2. split.
  - apply list_elem_of_In. vm_compute. tauto.
  - apply list_elem_of_In. vm_compute. tauto.
Qed.

End SharedEngine.

(** * Further properties of the code *)

(** ** What every call keeps *)

Section Kept.
Context {E Raw V D : Type} `{!Engine E Raw} `{!Distribution D Raw V}.
Implicit Types (s : random_impl E D) (tr : list (event E)).

Lemma count_draws_app tr1 tr2 :
  count_draws (tr1 ++ tr2) = (count_draws tr1 + count_draws tr2)%nat.
Proof.
  induction tr1 as [|[e| |] tr1 IH]; cbn [app count_draws]; lia.
Qed.

Lemma count_draws_run_sampler (t : sampler Raw V D) (e : E) :
  count_draws (run_sampler t e).2 = O.
Proof.
  revert e. induction t as [v d|k IH]; intros e; cbn [run_sampler]; [done|].
  destruct (engine_call e) as [r e']. specialize (IH r e').
  destruct (run_sampler (k r) e') as [res tr]. done.
Qed.

Lemma count_draws_draws_events (d0 : D) (e0 : E) (from n : nat) :
  count_draws (draws_events d0 e0 from n) = n.
Proof.
  revert from. induction n as [|n IH]; intros from; [done|].
  rewrite draws_events_S, count_draws_app, IH. unfold draw_events.
  cbn [count_draws]. by rewrite count_draws_run_sampler.
Qed.

(** X1.  Whatever is read from an object, and whatever the distribution
    is: the strides stay as the constructor computed them, the snapshot
    stream holds the engine of the constructor with its get position at
    the start and no fail bit, and the cursor stays in [-1, 2^31), so
    that [m_advance_state++] never overflows the [long]. *)
Theorem reads_keep_strides_snapshot_cursor (e : E) (d : D) (shape : list Z)
    (l : list (list Z)) :
  let s := state_of (read_all l (mk_random_impl e d shape)) in
  m_strides s = compute_strides shape
  ∧ m_engine_state s = snapshot_of e
  ∧ -1 <= m_advance_state s < 2 ^ 31.
Proof.
  intros s.
  destruct (read_all_cursor e d _ l _ (mk_random_impl_inv e d shape))
    as [[d1 Hinv] _].
  fold s in Hinv. destruct Hinv as [Hstr Hsnap Hc _]. done.
Qed.

(** X2.  The cost of a call, for every distribution.  On an object whose
    cursor is [c], a call for the position [p] that is not ahead of the
    cursor restores the engine and invokes the distribution
    [max 0 p + 1] times; a call for a position ahead of the cursor does
    not restore the engine and invokes the distribution [p - c] times,
    once when [p] is the position that follows the cursor. *)
Theorem access_impl_cost (e : E) (d : D) (shape : list Z)
    (l : list (list Z)) (idx : list Z) :
  let s := state_of (read_all l (mk_random_impl e d shape)) in
  let c := m_advance_state s in
  let p := inner_product idx (compute_strides shape) 0 in
  let tr := trace_of (access_impl idx s) in
  has_rewind tr = bool_decide (p < c + 1)
  ∧ count_draws tr = (if decide (p < c + 1)
                      then Z.to_nat (Z.max 0 p + 1) else Z.to_nat (p - c)).
Proof.
  intros s c p tr.
  destruct (read_all_cursor e d _ l _ (mk_random_impl_inv e d shape))
    as [[d1 Hinv] _].
  fold s in Hinv.
  destruct (access_impl_step e d1 _ s idx Hinv) as (s' & Heq & _ & _).
  fold p c in Heq. unfold tr, trace_of. rewrite Heq. cbn [snd].
  pose proof (inv_cursor _ _ _ _ Hinv) as Hc. fold c in Hc.
  split.
  - apply (access_events_count e _ c p (proj1 Hc)).
  - unfold access_events. case_decide as Hlt.
    + cbn [count_draws]. apply count_draws_draws_events.
    + rewrite count_draws_draws_events. f_equal. lia.
Qed.

End Kept.

(** ** Reading an array from its first to its last element *)

Section Sequential.
Context {E Raw V D : Type} `{!Engine E Raw} `{!Distribution D Raw V}.

Lemma value_of_read_all_cons (idx : list Z) (l : list (list Z)) (s : random_impl E D) :
  value_of (read_all (idx :: l) s)
  = value_of (access_impl idx s)
      :: value_of (read_all l (state_of (access_impl idx s))).
Proof. by rewrite read_all_cons. Qed.

Lemma state_of_read_all_cons (idx : list Z) (l : list (list Z)) (s : random_impl E D) :
  state_of (read_all (idx :: l) s)
  = state_of (read_all l (state_of (access_impl idx s))).
Proof. by rewrite read_all_cons. Qed.

Lemma trace_of_read_all_cons (idx : list Z) (l : list (list Z)) (s : random_impl E D) :
  trace_of (read_all (idx :: l) s)
  = trace_of (access_impl idx s)
      ++ trace_of (read_all l (state_of (access_impl idx s))).
Proof. by rewrite read_all_cons. Qed.

(** Reads at the positions that follow the cursor one after the other:
    the events are those of the draws that follow, and the object ends
    with its cursor on the last position read. *)
Lemma read_all_sequential_state (e0 : E) (d0 : D) strides (l : list (list Z))
    (s : random_impl E D) :
  inv e0 d0 strides s →
  (fun idx => inner_product idx strides 0) <$> l
  = seqZ (m_advance_state s + 1) (Z.of_nat (length l)) →
  inv e0 d0 strides (state_of (read_all l s))
  ∧ m_advance_state (state_of (read_all l s))
    = m_advance_state s + Z.of_nat (length l)
  ∧ trace_of (read_all l s)
    = draws_events d0 e0 (Z.to_nat (m_advance_state s + 1)) (length l).
Proof.
  revert s. induction l as [|idx l IH]; intros s Hinv Hpos.
  - cbn. split; [done|]. split; [lia|done].
  - rewrite state_of_read_all_cons, trace_of_read_all_cons.
    rewrite seqZ_cons in Hpos by (cbn [length]; lia).
    cbn [fmap list_fmap] in Hpos. injection Hpos as Hidx Hrest.
    destruct (access_impl_step e0 d0 strides s idx Hinv) as (s1 & Heq & Hinv1 & Hc1).
    rewrite Hidx in Heq, Hinv1, Hc1.
    rewrite decide_False in Heq, Hinv1 by lia.
    pose proof (inv_cursor _ _ _ _ Hinv) as Hc.
    replace (state_of (access_impl idx s)) with s1 by by rewrite Heq.
    replace (trace_of (access_impl idx s))
      with (access_events d0 e0 (m_advance_state s) (m_advance_state s + 1))
      by by rewrite Heq.
    destruct (IH s1 Hinv1) as (Hinv2 & Hc2 & Htr2).
    { rewrite Hrest, Hc1. f_equal; [lia|]. cbn [length]. lia. }
    split; [done|]. split; [cbn [length]; lia|].
    rewrite Htr2. cbn [length]. rewrite draws_events_S. unfold access_events.
    rewrite decide_False by lia.
    replace (Z.to_nat (Z.max 0 (m_advance_state s + 1) - m_advance_state s))
      with 1%nat by lia.
    rewrite draws_events_1. do 2 f_equal. lia.
Qed.

Lemma all_indices_sequential (shape : list Z) :
  Forall (fun n => 0 <= n) shape →
  shape_size shape <= 2 ^ 31 →
  (fun idx => inner_product idx (compute_strides shape) 0) <$> all_indices shape
  = seqZ 0 (Z.of_nat (length (all_indices shape))).
Proof.
  intros Hshape Hsize.
  rewrite length_all_indices, Z2Nat.id by by (try apply shape_size_nonneg).
  rewrite <- positions_all_indices by done.
  apply list_fmap_ext. intros i idx Hidx.
  rewrite inner_product_compute_strides. apply to_int_id.
  apply list_elem_of_lookup_2, all_indices_valid, linear_position_bound in Hidx.
  unfold is_int. lia.
Qed.

(** X3.  Reading an array of at most 2^31 elements from its first to its
    last element in row-major order never restores the engine, invokes
    the distribution once per element, and leaves the cursor on the last
    position with the distribution and the engine one draw per element
    into the stream.  This holds for every distribution. *)
Theorem row_major_read_never_rewinds (e : E) (d : D) (shape : list Z) :
  Forall (fun n => 0 <= n) shape →
  shape_size shape <= 2 ^ 31 →
  let r := read_all (all_indices shape) (mk_random_impl e d shape) in
  has_rewind (trace_of r) = false
  ∧ count_draws (trace_of r) = Z.to_nat (shape_size shape)
  ∧ m_advance_state (state_of r) = shape_size shape - 1
  ∧ (m_dist (state_of r), m_engine (state_of r))
    = after_draws (Z.to_nat (shape_size shape)) d e.
Proof.
  intros Hshape Hsize r.
  destruct (read_all_sequential_state e d (compute_strides shape)
              (all_indices shape) (mk_random_impl e d shape))
    as (Hinv & Hc & Htr).
  { apply mk_random_impl_inv. }
  { by apply all_indices_sequential. }
  fold r in Hinv, Hc, Htr.
  rewrite length_all_indices in Hc, Htr by done.
  pose proof (shape_size_nonneg shape Hshape) as Hnn.
  cbn [m_advance_state mk_random_impl] in Hc, Htr.
  rewrite Htr.
  destruct (draws_events_count d e (Z.to_nat (-1 + 1))
              (Z.to_nat (shape_size shape)) 0) as [_ ->].
  rewrite count_draws_draws_events.
  split; [done|]. split; [done|]. split; [lia|].
  rewrite (inv_stream _ _ _ _ Hinv), Hc. f_equal. lia.
Qed.

(** X4.  With a distribution that takes one raw value per sample, the
    factory leaves the caller's engine in the very state in which the
    engine of the array is after the array has been read from its first
    to its last element (at most 2^31 elements). *)
Theorem factory_engine_is_end_of_array (d : D) (engine : E) (shape : list Z) :
  (∀ d' : D, single_pull (dist_call d')) →
  Forall (fun n => 0 <= n) shape →
  shape_size shape <= 2 ^ 31 →
  let r := make_random_xgenerator d engine shape in
  m_engine (state_of (read_all (all_indices shape) (xg_functor r.1))) = r.2.
Proof.
  intros Hsingle Hshape Hsize r.
  destruct (read_all_sequential_state engine d (compute_strides shape)
              (all_indices shape) (mk_random_impl engine d shape))
    as (Hinv & Hc & _).
  { apply mk_random_impl_inv. }
  { by apply all_indices_sequential. }
  rewrite length_all_indices in Hc by done.
  pose proof (shape_size_nonneg shape Hshape) as Hnn.
  cbn [m_advance_state mk_random_impl] in Hc.
  change (xg_functor r.1) with (mk_random_impl engine d shape).
  change (m_engine ?s) with (m_dist s, m_engine s).2.
  rewrite (inv_stream _ _ _ _ Hinv), Hc, (after_draws_engine Hsingle).
  unfold r, make_random_xgenerator. cbn [snd].
  rewrite n_discard_spec, to_size_t_id by (unfold is_size_t; lia).
  f_equal. lia.
Qed.

End Sequential.

Section SequentialWitnesses.
Import Examples.

Lemma row_major_read_never_rewinds_witness :
  let r := read_all (all_indices [2; 3]) (mk_random_impl (0 : Z) (None : paired) [2; 3]) in
  has_rewind (trace_of r) = false
  ∧ count_draws (trace_of r) = Z.to_nat (shape_size [2; 3])
  ∧ m_advance_state (state_of r) = shape_size [2; 3] - 1
  ∧ (m_dist (state_of r), m_engine (state_of r))
    = after_draws (Z.to_nat (shape_size [2; 3])) (None : paired) (0 : Z).
Proof.
  apply (row_major_read_never_rewinds (0 : Z) (None : paired) [2; 3]).
  - repeat constructor; lia.
  - vm_compute. discriminate.
Defined.

Lemma factory_engine_is_end_of_array_witness :
  m_engine (state_of (read_all (all_indices [2; 3])
                        (xg_functor (make_random_xgenerator OneWord (0 : Z) [2; 3]).1)))
  = (make_random_xgenerator OneWord (0 : Z) [2; 3]).2.
Proof.
  apply (factory_engine_is_end_of_array OneWord (0 : Z) [2; 3]).
  - intros d' r. exact I.
  - repeat constructor; lia.
  - vm_compute. discriminate.
Defined.

End SequentialWitnesses.

(** ** Indices and positions *)

Section Indices.
Context {E Raw V D : Type} `{!Engine E Raw} `{!Distribution D Raw V}.

Lemma dot_zeros (n : nat) (strides : list Z) : dot (replicate n 0) strides = 0.
Proof.
  revert strides. induction n as [|n IH]; intros [|s strides]; cbn [replicate dot]; try done.
  rewrite IH. lia.
Qed.

Lemma dot_app_zeros (idx : list Z) (n : nat) (strides : list Z) :
  dot (idx ++ replicate n 0) strides = dot idx strides.
Proof.
  revert strides. induction idx as [|a idx IH]; intros strides.
  - cbn [app]. rewrite dot_zeros. by destruct strides.
  - destruct strides as [|s strides]; [done|]. cbn [app dot]. by rewrite IH.
Qed.

(** X5.  An index with fewer components than the object has strides
    addresses the element whose remaining components are 0: the call
    returns the same value, leaves the same state and causes the same
    events as the call with the index padded by zeros. *)
Theorem short_index_is_padded_with_zeros (idx : list Z) (n : nat)
    (s : random_impl E D) :
  (length idx + n <= length (m_strides s))%nat →
  access_impl idx s = access_impl (idx ++ replicate n 0) s.
Proof.
  intros _. unfold access_impl, bind, gets.
  by rewrite !inner_product_dot, dot_app_zeros.
Qed.

(** X6.  In an array of at most 2^31 elements two valid indices for which
    the accessor computes the same position are the same index: no two
    elements are served by the same draw. *)
Theorem valid_indices_have_distinct_positions (e : E) (d : D)
    (shape idx1 idx2 : list Z) :
  shape_size shape <= 2 ^ 31 →
  valid_index shape idx1 →
  valid_index shape idx2 →
  inner_product idx1 (m_strides (mk_random_impl e d shape)) 0
  = inner_product idx2 (m_strides (mk_random_impl e d shape)) 0 →
  idx1 = idx2.
Proof.
  intros Hsize H1 H2. cbn [m_strides mk_random_impl].
  rewrite !inner_product_compute_strides.
  pose proof (linear_position_bound shape idx1 H1).
  pose proof (linear_position_bound shape idx2 H2).
  rewrite !to_int_id by (unfold is_int; lia).
  intros Heq.
  pose proof (lookup_all_indices shape idx1 H1) as L1.
  pose proof (lookup_all_indices shape idx2 H2) as L2.
  rewrite Heq in L1. congruence.
Qed.

(** X7.  A read at or behind the cursor, for every distribution, also
    one that was handed over with buffered state: the engine is restored
    from the snapshot, the distribution is reset, and the value is draw
    number [max 0 p] of the stream that starts with the engine of the
    constructor and the reset distribution. *)
Theorem backward_read_draws_from_reset_distribution (e : E) (d : D)
    (shape : list Z) (l : list (list Z)) (idx : list Z) :
  let s := state_of (read_all l (mk_random_impl e d shape)) in
  let p := inner_product idx (compute_strides shape) 0 in
  p < m_advance_state s + 1 →
  value_of (access_impl idx s)
  = nth_draw (Z.to_nat (Z.max 0 p)) (dist_reset (m_dist s)) e.
Proof.
  intros s p Hback.
  destruct (read_all_cursor e d _ l _ (mk_random_impl_inv e d shape))
    as [[d1 Hinv] _].
  fold s in Hinv.
  destruct (access_impl_step e d1 _ s idx Hinv) as (s' & Heq & _ & _).
  fold p in Heq. rewrite decide_True in Heq by done.
  by rewrite Heq.
Qed.

Lemma inv_cursor_determines (e0 : E) (d0 : D) strides (s1 s2 : random_impl E D) :
  inv e0 d0 strides s1 →
  inv e0 d0 strides s2 →
  m_advance_state s1 = m_advance_state s2 →
  s1 = s2.
Proof.
  intros [Hstr1 Hss1 _ Hst1] [Hstr2 Hss2 _ Hst2] Hc.
  rewrite <- Hc, <- Hst1 in Hst2.
  destruct s1, s2. cbn in *. congruence.
Qed.

(** X8.  When [reset] restores the distribution the object was
    constructed with, the state in which a read leaves the object depends
    on the index read and on nothing that was read before. *)
Theorem state_after_read_forgets_history (e : E) (d : D) (shape : list Z)
    (l1 l2 : list (list Z)) (idx : list Z) :
  resets_to_initial d e →
  state_of (access_impl idx (state_of (read_all l1 (mk_random_impl e d shape))))
  = state_of (access_impl idx (state_of (read_all l2 (mk_random_impl e d shape)))).
Proof.
  intros Hreset.
  pose proof (mk_random_impl_inv e d shape) as Hinv.
  pose proof (read_all_inv e d _ Hreset l1 _ Hinv) as H1.
  pose proof (read_all_inv e d _ Hreset l2 _ Hinv) as H2.
  destruct (access_impl_spec e d _ _ idx Hreset H1) as (s1 & -> & Hi1 & Hc1).
  destruct (access_impl_spec e d _ _ idx Hreset H2) as (s2 & -> & Hi2 & Hc2).
  unfold state_of. cbn [fst snd].
  eapply inv_cursor_determines; [done|done|congruence].
Qed.

End Indices.

Section IndicesWitnesses.
Import Examples.

Lemma short_index_is_padded_with_zeros_witness :
  access_impl [1] (mk_random_impl (0 : Z) OneWord [2; 3])
  = access_impl ([1] ++ replicate 1 0) (mk_random_impl (0 : Z) OneWord [2; 3]).
Proof.
  apply (short_index_is_padded_with_zeros [1] 1 (mk_random_impl (0 : Z) OneWord [2; 3])).
  vm_compute. lia.
Defined.

Lemma valid_indices_have_distinct_positions_witness : [1; 0] = [1; 0].
Proof.
  apply (valid_indices_have_distinct_positions (0 : Z) OneWord [2; 3] [1; 0] [1; 0]).
  - vm_compute. discriminate.
  - repeat constructor; lia.
  - repeat constructor; lia.
  - reflexivity.
Defined.

Lemma backward_read_draws_from_reset_distribution_witness :
  let s := state_of (read_all [[0; 0]]
                       (mk_random_impl (0 : Z) (Some 7 : paired) [2; 3])) in
  value_of (access_impl [0; 0] s)
  = nth_draw (Z.to_nat (Z.max 0 (inner_product [0; 0] (compute_strides [2; 3]) 0)))
      (dist_reset (m_dist s)) (0 : Z).
Proof.
  apply (backward_read_draws_from_reset_distribution (0 : Z) (Some 7 : paired)
           [2; 3] [[0; 0]] [0; 0]).
  vm_compute. reflexivity.
Defined.

Lemma state_after_read_forgets_history_witness :
  state_of (access_impl [0; 1]
              (state_of (read_all [[1; 2]] (mk_random_impl (0 : Z) (None : paired) [2; 3]))))
  = state_of (access_impl [0; 1]
                (state_of (read_all [] (mk_random_impl (0 : Z) (None : paired) [2; 3])))).
Proof.
  apply (state_after_read_forgets_history (0 : Z) (None : paired) [2; 3]
           [[1; 2]] [] [0; 1]).
  intros n. reflexivity.
Defined.

End IndicesWitnesses.

(** ** Copies that share the snapshot *)

Section SharedSnapshot.
Context {E Raw V D : Type} `{!Engine E Raw} `{!Distribution D Raw V}.

Lemma inv_set_engine_state (e0 : E) (d0 : D) strides (s : random_impl E D) :
  inv e0 d0 strides s →
  inv e0 d0 strides (set_engine_state (snapshot_of e0) s).
Proof. intros [? ? ? ?]. by split. Qed.

Lemma access_copy_spec (e0 : E) (d0 : D) strides (on_first : bool)
    (idx : list Z) (c : copies E D) :
  resets_to_initial d0 e0 →
  inv e0 d0 strides (first_copy c) →
  inv e0 d0 strides (second_copy c) →
  (access_copy on_first idx c).1 = nth_draw (served_draw strides idx) d0 e0
  ∧ inv e0 d0 strides (first_copy (access_copy on_first idx c).2)
  ∧ inv e0 d0 strides (second_copy (access_copy on_first idx c).2).
Proof.
  intros Hreset H1 H2. unfold access_copy. destruct on_first; cbn [fst snd].
  - pose proof (access_impl_inv e0 d0 strides Hreset _ idx H1) as H1'.
    rewrite (access_impl_value e0 d0 strides Hreset) by done.
    cbn [first_copy second_copy]. rewrite (inv_snapshot _ _ _ _ H1').
    split; [done|]. split; [done|]. by apply inv_set_engine_state.
  - pose proof (access_impl_inv e0 d0 strides Hreset _ idx H2) as H2'.
    rewrite (access_impl_value e0 d0 strides Hreset) by done.
    cbn [first_copy second_copy]. rewrite (inv_snapshot _ _ _ _ H2').
    split; [done|]. split; [by apply inv_set_engine_state|done].
Qed.

(** X9.  Two copies of an object share the snapshot stream.  When [reset]
    restores the distribution of the constructor, calls on the two copies
    in any interleaving return, for every index, the value that a newly
    constructed object returns for it: a rewind of one copy never spoils a
    later rewind of the other, because every rewind puts the get position
    of the stream back to its start. *)
Theorem copies_read_independently (e : E) (d : D) (shape : list Z)
    (pre : list (list Z)) (l : list (bool * list Z)) :
  resets_to_initial d e →
  let s := state_of (read_all pre (mk_random_impl e d shape)) in
  (read_copies l (copy_of s)).1
  = (fun c => value_of (access_impl c.2 (mk_random_impl e d shape))) <$> l.
Proof.
  intros Hreset s.
  pose proof (mk_random_impl_inv e d shape) as Hinv0.
  assert (Hinv : inv e d (compute_strides shape) s)
    by by apply (read_all_inv e d _ Hreset).
  assert (Hgen : ∀ c, inv e d (compute_strides shape) (first_copy c) →
                      inv e d (compute_strides shape) (second_copy c) →
            (read_copies l c).1
            = (fun c => value_of (access_impl c.2 (mk_random_impl e d shape))) <$> l).
  { clear s Hinv. induction l as [|[b idx] l IH]; intros c H1 H2; [done|].
    cbn [read_copies fmap list_fmap].
    destruct (access_copy_spec e d _ b idx c Hreset H1 H2) as (Hv & H1' & H2').
    destruct (access_copy b idx c) as [v c1]. cbn [fst snd] in *.
    specialize (IH c1 H1' H2').
    destruct (read_copies l c1) as [vs c2]. cbn [fst snd] in *.
    rewrite (access_impl_value e d _ Hreset) by done.
    by rewrite Hv, IH. }
  by apply Hgen.
Qed.

End SharedSnapshot.

Section SharedSnapshotWitness.
Import Examples.

Lemma copies_read_independently_witness :
  let s := state_of (read_all [[1; 1]] (mk_random_impl (0 : Z) (None : paired) [2; 3])) in
  (read_copies [(true, [1; 2]); (false, [0; 0]); (true, [0; 1]); (false, [0; 0])]
     (copy_of s)).1
  = (fun c => value_of (access_impl c.2 (mk_random_impl (0 : Z) (None : paired) [2; 3])))
      <$> [(true, [1; 2]); (false, [0; 0]); (true, [0; 1]); (false, [0; 0])].
Proof.
  apply (copies_read_independently (0 : Z) (None : paired) [2; 3] [[1; 1]]
           [(true, [1; 2]); (false, [0; 0]); (true, [0; 1]); (false, [0; 0])]).
  intros n. reflexivity.
Defined.

End SharedSnapshotWitness.

(** ** The values of an array are values of its distribution *)

Section Values.
Context {E Raw V D : Type} `{!Engine E Raw} `{!Distribution D Raw V}.
Variables (I : D → Prop) (P : V → Prop).
Hypothesis Hcall : ∀ d, I d → sampler_all (fun v d' => P v ∧ I d') (dist_call d).
Hypothesis Hreset : ∀ d, I d → I (dist_reset d).
Implicit Types (s : random_impl E D).

Lemma run_sampler_all (Q : V → D → Prop) (t : sampler Raw V D) (e : E) :
  sampler_all Q t → Q (run_sampler t e).1.1.1 (run_sampler t e).1.1.2.
Proof.
  revert e. induction t as [v d|k IH]; intros e Ht; cbn [run_sampler]; [done|].
  destruct (engine_call e) as [r e']. specialize (IH r e' (Ht r)).
  by destruct (run_sampler (k r) e') as [[[v d] e''] tr].
Qed.

Lemma call_dist_yields s :
  I (m_dist s) →
  P (value_of (call_dist s)) ∧ I (m_dist (state_of (call_dist s))).
Proof.
  intros Hs. unfold call_dist, value_of, state_of.
  pose proof (run_sampler_all _ _ (m_engine s) (Hcall _ Hs)) as Hr.
  by destruct (run_sampler _ _) as [[[v d] e] tr].
Qed.

Lemma discard_loop_keeps (fuel : nat) (advance_state : Z) s :
  I (m_dist s) → I (m_dist (state_of (discard_loop fuel advance_state s))).
Proof.
  revert s. induction fuel as [|fuel IH]; intros s Hs; [done|].
  cbn [discard_loop]. unfold bind at 1, gets at 1.
  destruct (m_advance_state s <? advance_state); [|done].
  unfold bind at 1.
  destruct (call_dist_yields s Hs) as [_ Hs1].
  destruct (call_dist s) as [[v s1] t1]. unfold state_of in Hs1. cbn [fst snd] in Hs1.
  unfold bind at 1, incr_advance_state, modify.
  specialize (IH (set_advance_state (to_long (m_advance_state s1 + 1)) s1) Hs1).
  destruct (discard_loop fuel advance_state _) as [[u s2] t2].
  by unfold state_of in *.
Qed.

Lemma full_reset_keeps s :
  I (m_dist s) → I (m_dist (state_of (full_reset s))).
Proof.
  intros Hs. unfold full_reset, bind, emit, modify, state_of. cbn [fst snd].
  destruct (ss_extract (m_engine_state s)) as [[e|] ss]; cbn; by apply Hreset.
Qed.

Lemma access_impl_yields (idx : list Z) s :
  I (m_dist s) →
  P (value_of (access_impl idx s)) ∧ I (m_dist (state_of (access_impl idx s))).
Proof.
  intros Hs. unfold access_impl, bind, gets, incr_advance_state, modify.
  set (s1 := set_advance_state _ s).
  assert (H1 : I (m_dist s1)) by done. clearbody s1.
  set (adv := inner_product idx (m_strides s) 0). clearbody adv.
  cbn [fst snd].
  destruct (m_advance_state s1 =? adv).
  - destruct (call_dist_yields s1 H1) as [Hv Hd].
    destruct (call_dist s1) as [[v s2] t2]. by unfold value_of, state_of in *.
  - assert (H2 : I (m_dist (state_of
                      ((if adv <? m_advance_state s1 then full_reset else ret tt) s1)))).
    { destruct (adv <? m_advance_state s1); [by apply full_reset_keeps|done]. }
    destruct ((if adv <? m_advance_state s1 then full_reset else ret tt) s1)
      as [[u s2] t2].
    unfold state_of in H2. cbn [fst snd] in H2.
    pose proof (discard_loop_keeps (Z.to_nat (adv - m_advance_state s2)) adv s2 H2) as H3.
    destruct (discard_loop _ adv s2) as [[u' s3] t3].
    unfold state_of in H3. cbn [fst snd] in H3.
    destruct (call_dist_yields s3 H3) as [Hv Hd].
    destruct (call_dist s3) as [[v s4] t4]. by unfold value_of, state_of in *.
Qed.

(** X10.  An array contains nothing but values of its distribution.  Let
    [I] hold of the distribution of an object and be kept by every call
    and by [reset], and let every value that a distribution with [I] can
    yield satisfy [P].  Then every value read from the object satisfies
    [P], in whatever state the object is and whatever is read. *)
Theorem values_come_from_distribution (l : list (list Z)) s :
  I (m_dist s) →
  Forall P (value_of (read_all l s)) ∧ I (m_dist (state_of (read_all l s))).
Proof.
  revert s. induction l as [|idx l IH]; intros s Hs.
  - split; [constructor|done].
  - rewrite read_all_cons. unfold value_of at 1, state_of at 1. cbn [fst snd].
    destruct (access_impl_yields idx s Hs) as [Hv Hd].
    destruct (IH _ Hd) as [Hvs Hds].
    split; [by constructor|done].
Qed.

End Values.

Section RandInt.
Context {E Raw D : Type} `{!Engine E Raw} `{!Distribution D Raw Z}.
Variable uniform_int_distribution : Z → Z → D.

(** What the standard library promises of
    [std::uniform_int_distribution(a, b)] with [a <= b]: it yields values
    between [a] and [b], both included, also after a [reset]. *)
Hypothesis uniform_int_contract : ∀ a b, a <= b →
  ∃ I : D → Prop,
    I (uniform_int_distribution a b)
    ∧ (∀ d, I d → sampler_all (fun v d' => a <= v <= b ∧ I d') (dist_call d))
    ∧ (∀ d, I d → I (dist_reset d)).

(** X11.  The upper bound of [randint] is excluded: with [lower < upper],
    both of type [int], every element read from the array is at least
    [lower] and less than [upper]. *)
Theorem randint_upper_bound_is_excluded (shape : list Z) (lower upper : Z)
    (engine : E) (l : list (list Z)) :
  is_int lower → is_int upper → lower < upper →
  Forall (fun v => lower <= v < upper)
    (value_of (read_all l
       (xg_functor (randint uniform_int_distribution shape lower upper engine).1))).
Proof.
  intros Hlo Hup Hlt. unfold is_int in *.
  unfold randint, make_random_xgenerator. cbn [fst xg_functor make_xgenerator].
  rewrite to_int_id by (unfold is_int; lia).
  destruct (uniform_int_contract lower (upper - 1) ltac:(lia)) as (I & HI & Hcall & Hreset).
  generalize (mk_random_impl engine (uniform_int_distribution lower (upper - 1)) shape),
    (HI : I (m_dist (mk_random_impl engine
                       (uniform_int_distribution lower (upper - 1)) shape))).
  induction l as [|idx l IH]; intros s Hs; [constructor|].
  rewrite read_all_cons. unfold value_of at 1. cbn [fst].
  destruct (access_impl_yields I (fun v => lower <= v <= upper - 1) Hcall Hreset idx s Hs)
    as [Hv Hd].
  constructor; [lia|by apply IH].
Qed.

End RandInt.

Section ValuesWitnesses.
Import Examples.

Lemma values_come_from_distribution_witness :
  Forall (fun v => 10 <= v <= 15)
    (value_of (read_all [[1; 2]; [0; 0]]
                 (mk_random_impl (0 : Z) ((10, 15) : bounded) [2; 3])))
  ∧ m_dist (state_of (read_all [[1; 2]; [0; 0]]
                        (mk_random_impl (0 : Z) ((10, 15) : bounded) [2; 3])))
    = (10, 15).
Proof.
  apply (values_come_from_distribution (fun d : bounded => d = (10, 15))
           (fun v => 10 <= v <= 15)).
  - intros d -> r. cbn. split; [|reflexivity].
    pose proof (Z.mod_pos_bound r (15 - 10 + 1)). lia.
  - intros d ->. reflexivity.
  - reflexivity.
Defined.

Lemma randint_upper_bound_is_excluded_witness :
  Forall (fun v => 10 <= v < 16)
    (value_of (read_all [[1; 2]; [0; 0]]
       (xg_functor (randint (fun a b => (a, b) : bounded) [2; 3] 10 16 (0 : Z)).1))).
Proof.
  apply (randint_upper_bound_is_excluded (fun a b => (a, b) : bounded)).
  - intros a b Hab. exists (fun d : bounded => d = (a, b)).
    split; [reflexivity|]. split.
    + intros d -> r. cbn. split; [|reflexivity].
      pose proof (Z.mod_pos_bound r (b - a + 1)). lia.
    + intros d ->. reflexivity.
  - unfold is_int. lia.
  - unfold is_int. lia.
  - lia.
Defined.

End ValuesWitnesses.

(** ** Elements and draws *)

Section Elements.
Context {E Raw V D : Type} `{!Engine E Raw} `{!Distribution D Raw V}.

(** X12.  The element at a valid index whose linear position is below
    2^31 is the draw of that number, in whatever state earlier reads left
    the object (with a distribution that [reset] restores). *)
Theorem element_is_draw_at_linear_position (e : E) (d : D) (shape : list Z)
    (l : list (list Z)) (idx : list Z) :
  resets_to_initial d e →
  valid_index shape idx →
  linear_position shape idx < 2 ^ 31 →
  value_of (access_impl idx (state_of (read_all l (mk_random_impl e d shape))))
  = nth_draw (Z.to_nat (linear_position shape idx)) d e.
Proof.
  intros Hreset Hidx Hint.
  rewrite (access_impl_value e d (compute_strides shape) Hreset)
    by apply (read_all_inv e d _ Hreset), mk_random_impl_inv.
  unfold served_draw. rewrite inner_product_compute_strides.
  pose proof (linear_position_bound shape idx Hidx).
  rewrite to_int_id by (unfold is_int; lia).
  f_equal. lia.
Qed.

Lemma shape_size_zero (shape : list Z) : 0 ∈ shape → shape_size shape = 0.
Proof.
  induction shape as [|n shape IH]; [by intros ?%elem_of_nil|].
  rewrite shape_size_cons. intros [<-|Hin]%elem_of_cons; [lia|].
  rewrite IH by done. lia.
Qed.

Lemma bind_empty_blocks {A B} (l : list A) : l ≫= (fun _ => @nil B) = [].
Proof. induction l as [|x l IH]; [done|]. by rewrite bind_cons, IH. Qed.

Lemma all_indices_zero (shape : list Z) : 0 ∈ shape → all_indices shape = [].
Proof.
  induction shape as [|n shape IH]; [by intros ?%elem_of_nil|].
  cbn [all_indices]. intros [<-|Hin]%elem_of_cons; [done|].
  rewrite IH by done. apply bind_empty_blocks.
Qed.

(** X13.  An array with an extent of 0 is empty: it has no valid index,
    and the factory leaves the caller's engine as it was. *)
Theorem empty_array_consumes_nothing (d : D) (engine : E) (shape : list Z) :
  0 ∈ shape →
  all_indices shape = []
  ∧ (make_random_xgenerator d engine shape).2 = engine.
Proof.
  intros Hin. split; [by apply all_indices_zero|].
  unfold make_random_xgenerator. cbn [snd].
  by rewrite n_discard_spec, shape_size_zero.
Qed.

End Elements.

Section ElementsWitnesses.
Import Examples.

Lemma element_is_draw_at_linear_position_witness :
  value_of (access_impl [0; 1]
              (state_of (read_all [[1; 2]] (mk_random_impl (0 : Z) (None : paired) [2; 3]))))
  = nth_draw (Z.to_nat (linear_position [2; 3] [0; 1])) (None : paired) (0 : Z).
Proof.
  apply (element_is_draw_at_linear_position (0 : Z) (None : paired) [2; 3] [[1; 2]] [0; 1]).
  - intros n. reflexivity.
  - repeat constructor; lia.
  - vm_compute. reflexivity.
Defined.

Lemma empty_array_consumes_nothing_witness :
  all_indices [2; 0; 3] = []
  ∧ (make_random_xgenerator OneWord (5 : Z) [2; 0; 3]).2 = 5.
Proof.
  apply (empty_array_consumes_nothing OneWord (5 : Z) [2; 0; 3]).
  apply list_elem_of_In. vm_compute. tauto.
Defined.

Lemma row_major_traversal_below_int_max_witness :
  materialize (0 : Z) (Some 7 : paired) [2; 3]
  = fresh_draws (Z.to_nat (shape_size [2; 3])) (Some 7 : paired) (0 : Z).
Proof.
  apply (row_major_traversal_below_int_max (0 : Z) (Some 7 : paired) [2; 3]).
  - repeat constructor; lia.
  - vm_compute. discriminate.
Defined.

Lemma arrays_apart_one_raw_per_draw_witness :
  let r1 := make_random_xgenerator OneWord (0 : Z) [2; 3] in
  let r2 := make_random_xgenerator OneWord r1.2 [2] in
  (∀ x, x ∈ raw_states (trace_of (read_all [[1; 2]; [0; 0]] (xg_functor r1.1))) →
        ∃ j, 0 <= j < shape_size [2; 3] ∧ x = engine_discard j (0 : Z))
  ∧ (∀ x, x ∈ raw_states (trace_of (read_all [[1]; [0]] (xg_functor r2.1))) →
          ∃ j, shape_size [2; 3] <= j ∧ x = engine_discard j (0 : Z)).
Proof.
  apply (fun Hsingle => arrays_apart_one_raw_per_draw Hsingle
           (0 : Z) OneWord OneWord [2; 3] [2] [[1; 2]; [0; 0]] [[1]; [0]]).
  - intros d r. exact I.
  - vm_compute. split; [discriminate|reflexivity].
  - repeat constructor; lia.
Defined.

End ElementsWitnesses.
